(** * A shallow embedding of the dataq conjunctive query engine

    Sources: [src/src/core.rs] (fact store, patterns, queries and the
    backtracking [QueryState]), [src/src/database.rs] and
    [src/src/query.rs] (the arity-3 store and its evaluator [State]), and
    [src/examples/objects.rs] (the interning frontend).

    Modelling conventions.
    - [Sym] (u32) is [N]; [Var] (u16) and [usize] indices are [nat]
      (no id in the claims comes near the bounds of these types).
    - A Rust [Vec] is a [list]; reading [v[i]] is [vec_get], writing
      [v[i] = x] is [vec_set]; both panic out of range as Rust does.
    - The [trail] is a [Vec] used as a stack; it is modelled with its
      LAST element (the one [push]/[pop]/[last] act on) at the HEAD of
      the list.
    - A panic is the [Panic] branch of the result type [res]; the
      debug-build overflow check of [usize] subtraction is the panic
      [SubtractOverflow]. *)

From Stdlib Require Import NArith.
From stdpp Require Import base list gmap strings.

Set Default Goal Selector "!".

(* ------------------------------------------------------------------ *)
(** ** Results: a value or a panic *)

Inductive panic :=
  | IndexOutOfBounds      (* v[i] with i >= v.len() *)
  | SliceOutOfRange       (* v[i..] with i > v.len() *)
  | AssertFailed          (* assert_eq! *)
  | UnwrapFailed          (* Result::unwrap on Err *)
  | UnsupportedArity     (* panic!("Unsupported number of elements ...") *)
  | SubtractOverflow      (* usize -= 1 at 0 *)
  | MalformedQuery.       (* panic!("Malformed query ...") *)

Inductive res (A : Type) :=
  | Ok (a : A)
  | Panic (e : panic).
Arguments Ok {A} a.
Arguments Panic {A} e.

Global Instance res_ret : MRet res := fun _ x => Ok x.
Global Instance res_bind : MBind res := fun _ _ f m =>
  match m with Ok x => f x | Panic e => Panic e end.

Definition is_ok {A} (r : res A) : bool :=
  match r with Ok _ => true | Panic _ => false end.

Definition vec_get {A} (l : list A) (i : nat) : res A :=
  match l !! i with Some x => Ok x | None => Panic IndexOutOfBounds end.

Definition vec_set {A} (l : list A) (i : nat) (x : A) : res (list A) :=
  if decide (i < length l) then Ok (<[i:=x]> l) else Panic IndexOutOfBounds.

(* ------------------------------------------------------------------ *)
(** ** Fact store ([Db<N>] and [Database]) *)

Abbreviation Sym := N (only parsing).
Abbreviation Var := nat (only parsing).
Abbreviation FactID := nat (only parsing).

(** [type Tuple<E, const N: usize> = [E; 3]; type Fact<N> = Tuple<Sym, N>]:
    whatever [N], a stored fact is an array of exactly three symbols. A
    fact is kept as the list of its symbols. *)
Abbreviation Fact := (list Sym) (only parsing).
Definition FACT_ARRAY_LEN : nat := 3.

(** [impl TryFrom<&[Sym]> for [Sym; 3]]: succeeds iff the slice has
    length 3. *)
Definition try_into_fact (f : list Sym) : option Fact :=
  if decide (length f = FACT_ARRAY_LEN) then Some f else None.

Record Database := mkDatabase {
  db1 : list Fact; db2 : list Fact; db3 : list Fact;
  db4 : list Fact; db5 : list Fact; db6 : list Fact }.

Definition Database_new : Database := mkDatabase [] [] [] [] [] [].

(** [Db<N>::add_fact_n] on the bucket [facts]. *)
Definition add_fact_n (N : nat) (facts : list Fact) (f : list Sym) : res (list Fact) :=
  if decide (length f = N) then
    match try_into_fact f with
    | Some a => Ok (facts ++ [a])           (* self.facts.push(f) *)
    | None => Panic UnwrapFailed
    end
  else Panic AssertFailed.

(** [Database::add_fact]. *)
Definition add_fact (db : Database) (f : list Sym) : res Database :=
  let '(mkDatabase d1 d2 d3 d4 d5 d6) := db in
  match length f with
  | 1 => b ← add_fact_n 1 d1 f; Ok (mkDatabase b d2 d3 d4 d5 d6)
  | 2 => b ← add_fact_n 2 d2 f; Ok (mkDatabase d1 b d3 d4 d5 d6)
  | 3 => b ← add_fact_n 3 d3 f; Ok (mkDatabase d1 d2 b d4 d5 d6)
  | 4 => b ← add_fact_n 4 d4 f; Ok (mkDatabase d1 d2 d3 b d5 d6)
  | 5 => b ← add_fact_n 5 d5 f; Ok (mkDatabase d1 d2 d3 d4 b d6)
  | 6 => b ← add_fact_n 6 d6 f; Ok (mkDatabase d1 d2 d3 d4 d5 b)
  | _ => Panic UnsupportedArity
  end.

(** The bucket [Database::next_match] dispatches to, by arity. *)
Definition bucket (db : Database) (n : nat) : option (list Fact) :=
  match n with
  | 1 => Some (db1 db) | 2 => Some (db2 db) | 3 => Some (db3 db)
  | 4 => Some (db4 db) | 5 => Some (db5 db) | 6 => Some (db6 db)
  | _ => None
  end.

(* ------------------------------------------------------------------ *)
(** ** Patterns *)

Inductive PatternAtom := Wildcard | PSym (s : Sym).
Arguments PSym s%_N_scope.

Global Instance PatternAtom_eq_dec : EqDecision PatternAtom.
Proof. solve_decision. Defined.

(** [PatternAtom::matches]. *)
Definition atom_matches (p : PatternAtom) (sym : Sym) : bool :=
  match p with
  | Wildcard => true
  | PSym s => N.eqb s sym
  end.

Abbreviation Pattern := (list PatternAtom) (only parsing).

(** [Pattern::matches]: [zip] stops at the shorter of the two, then
    [all]. *)
Fixpoint matches (pat : Pattern) (fact : Fact) : bool :=
  match pat, fact with
  | p :: pat', s :: fact' => atom_matches p s && matches pat' fact'
  | _, _ => true
  end.

(** The [for] loop of [Db::next_match] over
    [self.facts[next_index..].iter().enumerate()], the index of the
    head of [l] being [i]. *)
Fixpoint scan_from (pat : Pattern) (l : list Fact) (i : FactID) : option (FactID * Fact) :=
  match l with
  | [] => None
  | f :: l' => if matches pat f then Some (i, f) else scan_from pat l' (S i)
  end.

(** [Db<N>::next_match]: slicing [facts[next_index..]] panics when
    [next_index > facts.len()]. *)
Definition db_next_match (facts : list Fact) (pat : Pattern) (next_index : FactID)
  : res (option (FactID * Fact)) :=
  if decide (next_index ≤ length facts)
  then Ok (scan_from pat (drop next_index facts) next_index)
  else Panic SliceOutOfRange.

(** [Database::next_match]. *)
Definition next_match (db : Database) (pat : Pattern) (next_index : FactID)
  : res (option (FactID * Fact)) :=
  match bucket db (length pat) with
  | Some facts => db_next_match facts pat next_index
  | None => Panic UnsupportedArity
  end.

(* ------------------------------------------------------------------ *)
(** ** Lifted facts and queries *)

Inductive Atom := AVar (v : Var) | ASym (s : Sym).
Arguments ASym s%_N_scope.

Abbreviation LiftedFact := (list Atom) (only parsing).

(** [Itertools::unique]: keeps the first occurrence of each element. *)
Fixpoint unique_from (seen : list nat) (l : list nat) : list nat :=
  match l with
  | [] => []
  | x :: l' =>
      if decide (x ∈ seen) then unique_from seen l' else x :: unique_from (x :: seen) l'
  end.
Definition unique (l : list nat) : list nat := unique_from [] l.

Definition atom_var (a : Atom) : option Var :=
  match a with AVar v => Some v | ASym _ => None end.

(** [LiftedFact::vars]. *)
Definition lifted_vars (lf : LiftedFact) : list Var := unique (omap atom_var lf).

Record Query := mkQuery { elems : list LiftedFact }.

(** [Query::from] (and [Query::single c] is [Query_from [c]]). *)
Definition Query_from (facts : list (list Atom)) : Query := mkQuery facts.

(** [Query::vars]. *)
Definition query_vars (q : Query) : list Var := unique (mjoin (map lifted_vars (elems q))).

(** [Query::num_vars]: [max + 1], or [0] without variables. *)
Definition num_vars (q : Query) : nat :=
  match query_vars q with
  | [] => 0
  | v :: vs => S (foldr Nat.max v vs)
  end.

(** [Assignment = Vec<Sym>]. *)
Abbreviation Assignment := (list Sym) (only parsing).

(* ------------------------------------------------------------------ *)
(** ** The backtracking evaluator [QueryState] *)

Record QueryState := mkQS {
  query : Query;
  fact_support : list nat;
  assignment : list PatternAtom;
  next_unsupported_fact : nat;
  trail : list (nat * Var)      (* head = last element of the Vec *)
}.

(** [QueryState::new]. *)
Definition QueryState_new (q : Query) : QueryState :=
  mkQS q (replicate (length (elems q)) 0) (replicate (num_vars q) Wildcard) 0 [].

(** The [loop] of [undo_last]: while the trail's last entry belongs to
    fact [k], reset its variable to [Wildcard] and pop it. *)
Fixpoint undo_trail (k : nat) (assign : list PatternAtom) (tr : list (nat * Var))
  : res (list PatternAtom * list (nat * Var)) :=
  match tr with
  | (fact_id, var) :: tr' =>
      if decide (fact_id = k) then
        assign' ← vec_set assign var Wildcard;
        undo_trail k assign' tr'
      else Ok (assign, tr)
  | [] => Ok (assign, [])
  end.

(** [self.next_unsupported_fact -= 1]. *)
Definition usize_dec (n : nat) : res nat :=
  match n with 0 => Panic SubtractOverflow | S m => Ok m end.

(** [QueryState::undo_last]. *)
Definition undo_last (st : QueryState) : res QueryState :=
  let '(mkQS q fs assign nuf tr) := st in
  nuf' ← usize_dec nuf;
  c ← vec_get fs nuf';
  fs' ← vec_set fs nuf' (S c);
  '(assign', tr') ← undo_trail nuf' assign tr;
  Ok (mkQS q fs' assign' nuf' tr').

(** The pattern built from a lifted fact under the current assignment. *)
Definition pattern_atom (assign : list PatternAtom) (a : Atom) : res PatternAtom :=
  match a with
  | ASym s => Ok (PSym s)
  | AVar v => vec_get assign v
  end.

Fixpoint build_pattern (assign : list PatternAtom) (atoms : list Atom) : res Pattern :=
  match atoms with
  | [] => Ok []
  | a :: atoms' => p ← pattern_atom assign a; ps ← build_pattern assign atoms'; Ok (p :: ps)
  end.

(** The binding loop [for (i, atom) in atoms.iter().enumerate()] of
    [next], for fact [k] supported by [fact]; [i] is the position of the
    head of [atoms]. *)
Fixpoint bind_vars (k i : nat) (atoms : list Atom) (fact : Fact)
    (assign : list PatternAtom) (tr : list (nat * Var))
  : res (list PatternAtom * list (nat * Var)) :=
  match atoms with
  | [] => Ok (assign, tr)
  | ASym _ :: atoms' => bind_vars k (S i) atoms' fact assign tr
  | AVar v :: atoms' =>
      a ← vec_get assign v;
      if decide (a = Wildcard) then
        s ← vec_get fact i;
        assign' ← vec_set assign v (PSym s);
        bind_vars k (S i) atoms' fact assign' ((k, v) :: tr)
      else bind_vars k (S i) atoms' fact assign tr
  end.

(** What one iteration of the [while] loop of [next] ends with. *)
Inductive step_result :=
  | Continue (st : QueryState)     (* go round the loop again *)
  | ReturnNone (st : QueryState).  (* [return None] *)

(** The body of the [while] loop of [QueryState::next]. *)
Definition step (db : Database) (st : QueryState) : res step_result :=
  let '(mkQS q fs assign k tr) := st in
  lf ← vec_get (elems q) k;
  pat ← build_pattern assign lf;
  c ← vec_get fs k;
  m ← next_match db pat c;
  match m with
  | Some (support, fact) =>
      '(assign', tr') ← bind_vars k 0 lf fact assign tr;
      fs' ← vec_set fs k support;
      Ok (Continue (mkQS q fs' assign' (S k) tr'))
  | None =>
      fs' ← vec_set fs k 0;
      if decide (k = 0) then Ok (ReturnNone (mkQS q fs' assign k tr))
      else st' ← undo_last (mkQS q fs' assign k tr); Ok (Continue st')
  end.

(** What [next] does before its loop: undo the solution it stands on,
    or check it is at the start. *)
Definition prelude (st : QueryState) : res QueryState :=
  if decide (next_unsupported_fact st = length (fact_support st)) then undo_last st
  else if decide (next_unsupported_fact st = 0) then Ok st
  else Panic AssertFailed.

(** The copy of the assignment made after the loop. *)
Fixpoint emit (assign : list PatternAtom) : res Assignment :=
  match assign with
  | [] => Ok []
  | Wildcard :: _ => Panic MalformedQuery
  | PSym s :: assign' => rest ← emit assign'; Ok (s :: rest)
  end.

(** The [while] loop of [next] and what follows it, as a big-step
    relation (the loop's meaning, with no bound on its iterations). *)
Inductive loop_rel (db : Database) : QueryState -> res (QueryState * option Assignment) -> Prop :=
  | loop_exit st :
      ¬ next_unsupported_fact st < length (fact_support st) ->
      loop_rel db st (a ← emit (assignment st); Ok (st, Some a))
  | loop_continue st st' r :
      next_unsupported_fact st < length (fact_support st) ->
      step db st = Ok (Continue st') ->
      loop_rel db st' r ->
      loop_rel db st r
  | loop_return st st' :
      next_unsupported_fact st < length (fact_support st) ->
      step db st = Ok (ReturnNone st') ->
      loop_rel db st (Ok (st', None))
  | loop_panic st e :
      next_unsupported_fact st < length (fact_support st) ->
      step db st = Panic e ->
      loop_rel db st (Panic e).

(** [QueryState::next]: the new state and the returned [Option], or a
    panic. *)
Definition next_rel (db : Database) (st : QueryState) (r : res (QueryState * option Assignment)) : Prop :=
  match prelude st with
  | Ok st0 => loop_rel db st0 r
  | Panic e => r = Panic e
  end.

(** The states an evaluator goes through: [new], then successive
    [next] calls that returned. *)
Inductive reachable (db : Database) (q : Query) : QueryState -> Prop :=
  | reach_new : reachable db q (QueryState_new q)
  | reach_next st st' o :
      reachable db q st -> next_rel db st (Ok (st', o)) -> reachable db q st'.

(** An executable version of the loop, with a bound [fuel] on its
    iterations ([None] when the bound is hit). *)
Fixpoint loop_fuel (fuel : nat) (db : Database) (st : QueryState)
  : option (res (QueryState * option Assignment)) :=
  if decide (next_unsupported_fact st < length (fact_support st)) then
    match fuel with
    | 0 => None
    | S fuel' =>
        match step db st with
        | Ok (Continue st') => loop_fuel fuel' db st'
        | Ok (ReturnNone st') => Some (Ok (st', None))
        | Panic e => Some (Panic e)
        end
    end
  else Some (a ← emit (assignment st); Ok (st, Some a)).

Definition next_fuel (fuel : nat) (db : Database) (st : QueryState)
  : option (res (QueryState * option Assignment)) :=
  match prelude st with
  | Ok st0 => loop_fuel fuel db st0
  | Panic e => Some (Panic e)
  end.

(** Adding facts one after the other to a store. *)
Fixpoint add_facts (db : Database) (fs : list (list Sym)) : res Database :=
  match fs with
  | [] => Ok db
  | f :: fs' => db' ← add_fact db f; add_facts db' fs'
  end.

(* ------------------------------------------------------------------ *)
(** ** The interning frontend ([examples/objects.rs]) *)

(** The core store and its [add_fact], under the names the frontend
    uses for them ([dataq::Database], [dataq::Database::add_fact]). *)
Abbreviation CoreDatabase := Database (only parsing).
Abbreviation core_add_fact := add_fact (only parsing).

Module Frontend.

Record Database := mkFront {
  ids : gmap string N;
  interned : list string;
  db : CoreDatabase
}.

Definition new : Database := mkFront ∅ [] Database_new.

(** [Database::interned]. *)
Definition interned_id (d : Database) (s : string) : Database * N :=
  match ids d !! s with
  | Some id => (d, id)
  | None =>
      let id := N.of_nat (length (interned d)) in
      (mkFront (<[s:=id]> (ids d)) (interned d ++ [s]) (db d), id)
  end.

(** [fact.iter().copied().map(|s| self.interned(s)).collect()]. *)
Fixpoint intern_all (d : Database) (fact : list string) : Database * list N :=
  match fact with
  | [] => (d, [])
  | s :: fact' =>
      let '(d1, id) := interned_id d s in
      let '(d2, ids') := intern_all d1 fact' in
      (d2, id :: ids')
  end.

(** [Database::add_fact]. *)
Definition add_fact (d : Database) (fact : list string) : res Database :=
  let '(d', syms) := intern_all d fact in
  core ← core_add_fact (db d') syms;
  Ok (mkFront (ids d') (interned d') core).

Inductive Atom := Sym (s : string) | Var (s : string).

(** [impl From<&'static str> for Atom]. *)
Definition atom_from (s : string) : Atom :=
  if String.prefix "?" s then Var s else Sym s.

End Frontend.

(* ------------------------------------------------------------------ *)
(** ** The store of the test suite ([mod test], [fn database]) *)

Definition test_facts : list (list Sym) :=
  [[1;2;1]; [1;2;2]; [1;2;3]; [1;2;4]; [1;2;5];
   [2;2;1]; [2;2;2]; [2;2;3]; [2;2;4]; [2;2;5]; [2;2;6]; [2;2;7];
   [1;3;1]; [1;3;2]; [1;3;3]; [1;3;4]; [1;3;5]; [1;3;6]]%N.

Definition test_db : Database :=
  mkDatabase [] [] test_facts [] [] [].


(** Running [next] [n] times from [st], with a generous loop bound. *)
Fixpoint run_n (n : nat) (db : Database) (st : QueryState) : list (option (res (option Assignment))) :=
  match n with
  | 0 => []
  | S n' =>
      match next_fuel 1000 db st with
      | Some (Ok (st', o)) => Some (Ok o) :: run_n n' db st'
      | Some (Panic e) => [Some (Panic e)]
      | None => [None]
      end
  end.

Definition q1 := Query_from [[ASym 1; ASym 2; AVar 0]].
Definition q6 := Query_from [[AVar 2; AVar 1; ASym 7]; [AVar 2; AVar 0; ASym 3]].
Definition qrep := Query_from [[AVar 0; AVar 0; ASym 3]].
Definition qgap := Query_from [[ASym 1; ASym 2; AVar 1]].

(** The state [next] leaves behind, computed with the executable loop. *)
Definition next_state_fuel (fuel : nat) (db : Database) (st : QueryState) : QueryState :=
  match next_fuel fuel db st with Some (Ok (st', _)) => st' | _ => st end.

(** The tuple obtained by substituting an assignment into a lifted fact. *)
Definition subst (A : Assignment) (lf : LiftedFact) : list Sym :=
  map (fun a => match a with ASym s => s | AVar v => default 0%N (A !! v) end) lf.

(** A tuple is in the store: it is in the bucket of its arity. *)
Definition in_store (db : Database) (t : list Sym) : Prop :=
  ∃ facts, bucket db (length t) = Some facts ∧ t ∈ facts.

(* ------------------------------------------------------------------ *)
(** ** Properties of stores, queries and evaluator states *)

(** Every fact of the bucket of arity [n] has [n] symbols; true of
    every store [add_fact] builds (only length-3 facts reach a bucket,
    the one of arity 3). *)
Definition db_wf (db : Database) : Prop :=
  Forall (fun f => length f = 1) (db1 db) ∧ Forall (fun f => length f = 2) (db2 db) ∧
  Forall (fun f => length f = 3) (db3 db) ∧ Forall (fun f => length f = 4) (db4 db) ∧
  Forall (fun f => length f = 5) (db5 db) ∧ Forall (fun f => length f = 6) (db6 db).

(** Every conjunct has an arity the store supports. *)
Definition wf_query (q : Query) : Prop :=
  Forall (fun C => 1 ≤ length C ≤ 6) (elems q).

(** [v] is the variable at position [p] of [C], and does not occur
    before [p]. *)
Definition first_occ (C : LiftedFact) (p : nat) (v : Var) : Prop :=
  C !! p = Some (AVar v) ∧ ∀ p', p' < p -> C !! p' ≠ Some (AVar v).

(** The fact [f] supports the conjunct [C] under the assignment [A]:
    symbols agree, and each variable, at its first position in [C], is
    bound in [A] to the symbol of [f] there. *)
Definition supports (A : list PatternAtom) (C : LiftedFact) (f : Fact) : Prop :=
  length f = length C ∧
  (∀ p s, C !! p = Some (ASym s) -> f !! p = Some s) ∧
  (∀ p v, first_occ C p v -> ∃ x, f !! p = Some x ∧ A !! v = Some (PSym x)).

(** The trail, from its last entry down, has non-increasing fact
    indices, all below [n]. *)
Fixpoint trail_ordered (n : nat) (tr : list (nat * Var)) : Prop :=
  match tr with
  | [] => True
  | (j, _) :: tr' => j < n ∧ trail_ordered (S j) tr'
  end.

(** The invariant of the evaluator's state, between iterations of the
    loop of [next] and between calls. *)
Record Inv (db : Database) (st : QueryState) : Prop := {
  inv_support_len : length (fact_support st) = length (elems (query st));
  inv_assign_len : length (assignment st) = num_vars (query st);
  inv_nuf_le : next_unsupported_fact st ≤ length (elems (query st));
  inv_trail_ordered : trail_ordered (next_unsupported_fact st) (trail st);
  inv_trail_nodup : NoDup (map snd (trail st));
  inv_bound_iff : ∀ v, v ∈ map snd (trail st) <-> ∃ x, assignment st !! v = Some (PSym x);
  inv_trail_var : ∀ j v, (j, v) ∈ trail st -> ∃ C, elems (query st) !! j = Some C ∧ AVar v ∈ C;
  inv_supported : ∀ j C, j < next_unsupported_fact st -> elems (query st) !! j = Some C ->
      ∃ facts i f, bucket db (length C) = Some facts ∧ fact_support st !! j = Some i ∧
        facts !! i = Some f ∧ supports (assignment st) C f ∧
        (∀ v, AVar v ∈ C -> ∃ j', j' ≤ j ∧ (j', v) ∈ trail st);
  inv_fresh : ∀ j, next_unsupported_fact st < j -> j < length (elems (query st)) ->
      fact_support st !! j = Some 0;
  inv_cursor : ∀ C facts c, elems (query st) !! next_unsupported_fact st = Some C ->
      bucket db (length C) = Some facts -> fact_support st !! next_unsupported_fact st = Some c ->
      c ≤ length facts
}.

(** Strict lexicographic order on cursor tuples of equal length. *)
Fixpoint lex_lt (l1 l2 : list nat) : Prop :=
  match l1, l2 with
  | x :: l1', y :: l2' => x < y ∨ (x = y ∧ lex_lt l1' l2')
  | _, _ => False
  end.

(** The cursor tuple [fs] is past [S0] at position [p]: equal before
    [p], larger at [p]. *)
Definition lex_at (S0 fs : list nat) (p : nat) : Prop :=
  take p S0 = take p fs ∧ ∃ a b, S0 !! p = Some a ∧ fs !! p = Some b ∧ a < b.

(** [fs] is a tuple of fact indices, one per conjunct of [q], each
    naming a stored fact that supports its conjunct under [A]. *)
Definition supporting_tuple (db : Database) (q : Query) (fs : list nat) (A : list PatternAtom) : Prop :=
  length fs = length (elems q) ∧
  ∀ j C, elems q !! j = Some C ->
    ∃ facts i f, bucket db (length C) = Some facts ∧ fs !! j = Some i ∧
      facts !! i = Some f ∧ supports A C f.

(** Every variable id below [num_vars q] occurs in some conjunct. *)
Definition dense_vars (q : Query) : Prop :=
  ∀ v, v < num_vars q -> ∃ C, C ∈ elems q ∧ AVar v ∈ C.

(** The number of facts in the store. *)
Definition db_size (db : Database) : nat :=
  length (db1 db) + length (db2 db) + length (db3 db) +
  length (db4 db) + length (db5 db) + length (db6 db).

(** Where the search of [next] stands: the cursors of the supported
    conjuncts, then the cursor of the conjunct being looked at ([0]
    once all are supported). *)
Definition search_pos (st : QueryState) : list nat :=
  take (next_unsupported_fact st) (fact_support st) ++
  [default 0 (fact_support st !! next_unsupported_fact st)].

(** A position read as the digits, each shifted by one, of a number in
    base [B] with [m] digits (absent digits are [0]): the longer or
    lexicographically larger position has the larger rank. *)
Fixpoint pos_rank (B m : nat) (P : list nat) : nat :=
  match P, m with
  | x :: P', S m' => S x * B ^ m' + pos_rank B m' P'
  | _, _ => 0
  end.

(* ------------------------------------------------------------------ *)
(** ** The arity-3 evaluator of [src/src/database.rs] and [src/src/query.rs] *)

Abbreviation CoreQuery := Query (only parsing).

Module QueryRs.

(** [database::Database]: one [Vec<Fact>], a fact being [[Sym; 3]]. *)
Record Database := mkDB { facts : list Fact }.

Definition new : Database := mkDB [].

(** [database::Database::add_fact]. *)
Definition add_fact (db : Database) (f : Fact) : Database := mkDB (facts db ++ [f]).

(** [database::Database::next_match]: the same slice-and-scan as
    [Db<N>::next_match], on the single vector of facts. *)
Definition next_match (db : Database) (pat : Pattern) (next_index : FactID)
  : res (option (FactID * Fact)) :=
  db_next_match (facts db) pat next_index.

(** The body of the [while] loop of [State::next]. *)
Definition step (db : Database) (st : QueryState) : res step_result :=
  let '(mkQS q fs assign k tr) := st in
  lf ← vec_get (elems q) k;
  pat ← build_pattern assign lf;
  c ← vec_get fs k;
  m ← next_match db pat c;
  match m with
  | Some (support, fact) =>
      '(assign', tr') ← bind_vars k 0 lf fact assign tr;
      fs' ← vec_set fs k support;
      Ok (Continue (mkQS q fs' assign' (S k) tr'))
  | None =>
      fs' ← vec_set fs k 0;
      if decide (k = 0) then Ok (ReturnNone (mkQS q fs' assign k tr))
      else st' ← undo_last (mkQS q fs' assign k tr); Ok (Continue st')
  end.

(** The [while] loop of [State::next] and what follows it. *)
Inductive loop_rel (db : Database) : QueryState -> res (QueryState * option Assignment) -> Prop :=
  | loop_exit st :
      ¬ next_unsupported_fact st < length (fact_support st) ->
      loop_rel db st (a ← emit (assignment st); Ok (st, Some a))
  | loop_continue st st' r :
      next_unsupported_fact st < length (fact_support st) ->
      step db st = Ok (Continue st') ->
      loop_rel db st' r ->
      loop_rel db st r
  | loop_return st st' :
      next_unsupported_fact st < length (fact_support st) ->
      step db st = Ok (ReturnNone st') ->
      loop_rel db st (Ok (st', None))
  | loop_panic st e :
      next_unsupported_fact st < length (fact_support st) ->
      step db st = Panic e ->
      loop_rel db st (Panic e).

(** [State::next]; its prelude is the one of [QueryState::next]. *)
Definition next_rel (db : Database) (st : QueryState) (r : res (QueryState * option Assignment)) : Prop :=
  match prelude st with
  | Ok st0 => loop_rel db st0 r
  | Panic e => r = Panic e
  end.

End QueryRs.

(** The core store holding the facts of a [database::Database] in its
    arity-3 bucket. *)
Definition core_of_rs (db : QueryRs.Database) : Database :=
  mkDatabase [] [] (QueryRs.facts db) [] [] [].

(* ------------------------------------------------------------------ *)
(** ** Queries of the interning frontend ([examples/objects.rs]) *)

Abbreviation CoreAtom := Atom (only parsing).

(** The string table of a frontend store is consistent: [ids] maps a
    string to [i] exactly when [interned[i]] is that string. *)
Definition interned_wf (d : Frontend.Database) : Prop :=
  ∀ s i, Frontend.ids d !! s = Some i <-> Frontend.interned d !! N.to_nat i = Some s.

Module FrontendQuery.

(** [objects::Query]. *)
Record Query := mkQuery { elems : list (list Frontend.Atom) }.

(** [Query::from], on lists of strings ([T = &str], [t.into()] is
    [Atom::from]). *)
Definition from (facts : list (list string)) : Query :=
  mkQuery (map (map Frontend.atom_from) facts).

(** [Itertools::unique] on strings. *)
Fixpoint unique_from (seen : list string) (l : list string) : list string :=
  match l with
  | [] => []
  | x :: l' =>
      if decide (x ∈ seen) then unique_from seen l' else x :: unique_from (x :: seen) l'
  end.

Definition atom_var_name (a : Frontend.Atom) : option string :=
  match a with Frontend.Var v => Some v | Frontend.Sym _ => None end.

(** [Query::vars]: the variable names, first appearances first. *)
Definition vars (q : Query) : list string :=
  unique_from [] (mjoin (map (omap atom_var_name) (elems q))).

(** The [HashMap] [id_of_var] collected from
    [vars.iter().enumerate()], mapping [(id, name)] to the pair of [name] and [id]: each pair
    inserted in turn, [i] being the index of the head of [names]. *)
Fixpoint id_of_var_from (m : gmap string nat) (i : nat) (names : list string) : gmap string nat :=
  match names with
  | [] => m
  | x :: names' => id_of_var_from (<[x:=i]> m) (S i) names'
  end.

Definition id_of_var (q : Query) : gmap string nat := id_of_var_from ∅ 0 (vars q).

(** The closure [to_core] of [Database::run]: an unknown symbol becomes
    [u32::MAX]; [id_of_var[&v]] panics on a missing key (the panic of an
    indexing operation). *)
Definition to_core (d : Frontend.Database) (idv : gmap string nat) (a : Frontend.Atom) : res CoreAtom :=
  match a with
  | Frontend.Sym s => Ok (ASym (default 4294967295%N (Frontend.ids d !! s)))
  | Frontend.Var v =>
      match idv !! v with
      | Some id => Ok (AVar id)
      | None => Panic IndexOutOfBounds
      end
  end.

(** [Query::compile] with the [to_core] of [Database::run]. *)
Definition compile (d : Frontend.Database) (q : Query) : res CoreQuery :=
  elems' ← mapM (mapM (to_core d (id_of_var q))) (elems q);
  Ok (Query_from elems').

End FrontendQuery.

(** Every symbol of a stored fact is an index of the string table. *)
Definition syms_interned (d : Frontend.Database) : Prop :=
  ∀ n facts (f : Fact) x, bucket (Frontend.db d) n = Some facts -> f ∈ facts -> x ∈ f ->
    is_Some (Frontend.interned d !! N.to_nat x).

(** Adding facts one after the other to a frontend store. *)
Fixpoint front_add_facts (d : Frontend.Database) (fs : list (list string)) : res Frontend.Database :=
  match fs with
  | [] => Ok d
  | f :: fs' => d' ← Frontend.add_fact d f; front_add_facts d' fs'
  end.

(** The store and the two-conjunct query of [objects.rs]'s [main]. *)
Definition objects_facts : list (list string) :=
  [["on"; "table"; "cup1"]; ["on"; "table"; "cup2"]; ["in"; "kitchen"; "table"];
   ["in"; "bedroom"; "bed"]; ["in"; "bedroom"; "nightstand"]; ["on"; "nightstand"; "light"]]%string.

Definition objects_db : Frontend.Database :=
  match front_add_facts Frontend.new objects_facts with Ok d => d | Panic _ => Frontend.new end.

Definition objects_query : FrontendQuery.Query :=
  FrontendQuery.from [["on"; "?support"; "cup1"]; ["in"; "?room"; "?support"]]%string.

Definition objects_cq : Query :=
  match FrontendQuery.compile objects_db objects_query with Ok cq => cq | Panic _ => Query_from [] end.

(* ------------------------------------------------------------------ *)
(** ** Proofs

    The store of the test suite is the one [fn database] builds. *)

Example test_db_built : add_facts Database_new test_facts = Ok test_db.
Proof. reflexivity. Qed.

(** ** The executable loop computes the loop relation, which is a function *)

Lemma loop_fuel_sound fuel db st r :
  loop_fuel fuel db st = Some r -> loop_rel db st r.
Proof.
  revert st. induction fuel as [|fuel IH]; intros st H; simpl in H;
    (destruct (decide _) as [Hlt|Hlt]; [|injection H as <-; by apply loop_exit]).
  - discriminate.
  - destruct (step db st) as [[st'|st']|e] eqn:Hs.
    + eapply loop_continue; eauto.
    + injection H as <-. by eapply loop_return.
    + injection H as <-. by apply loop_panic.
Qed.

Lemma next_fuel_sound fuel db st r :
  next_fuel fuel db st = Some r -> next_rel db st r.
Proof.
  unfold next_fuel, next_rel. destruct (prelude st).
  - apply loop_fuel_sound.
  - by intros [= <-].
Qed.

Lemma loop_rel_det db st r1 r2 :
  loop_rel db st r1 -> loop_rel db st r2 -> r1 = r2.
Proof.
  intros H1. revert r2.
  induction H1 as [st Hn|st st' r Hn Hs H1 IH|st st' Hn Hs|st e Hn Hs];
    intros r2 H2; inversion H2; subst; try done; try congruence.
  - rewrite Hs in H0. injection H0 as <-. by apply IH.
Qed.

Lemma next_rel_det db st r1 r2 :
  next_rel db st r1 -> next_rel db st r2 -> r1 = r2.
Proof.
  unfold next_rel. destruct (prelude st).
  - apply loop_rel_det.
  - by intros -> ->.
Qed.

(* ------------------------------------------------------------------ *)
(** ** Adding facts *)

Lemma add_fact_ok_iff (db db' : Database) (f : list Sym) :
  add_fact db f = Ok db' <->
  length f = 3 ∧ db' = mkDatabase (db1 db) (db2 db) (db3 db ++ [f]) (db4 db) (db5 db) (db6 db).
Proof.
  destruct db as [d1 d2 d3 d4 d5 d6]. unfold add_fact, add_fact_n, try_into_fact, FACT_ARRAY_LEN.
  simpl. split.
  - destruct (length f) as [|[|[|[|[|[|[|n]]]]]]] eqn:Hl; simpl;
      repeat (case_decide; try lia); simpl; try discriminate.
    intros [= <-]. done.
  - intros [Hl ->]. rewrite Hl. simpl. repeat (case_decide; try lia). done.
Qed.

(** C1 (a defect of the code). The store is meant to take facts of length 1 to 6
    (six buckets, [add_fact_n] asserting [f.len() == N]), but [Fact<N>]
    is [[Sym; 3]] for every [N]: a fact of length 1 makes
    [f.try_into().unwrap()] panic, and only facts of length 3 are ever
    added, at the end of their bucket. *)
Theorem add_fact_unary_panics :
  add_fact Database_new [1%N] = Panic UnwrapFailed ∧
  (∀ (db db' : Database) (f : list Sym),
     add_fact db f = Ok db' <->
     length f = 3 ∧ db' = mkDatabase (db1 db) (db2 db) (db3 db ++ [f]) (db4 db) (db5 db) (db6 db)).
Proof. split; [reflexivity | intros; apply add_fact_ok_iff]. Qed.

(* ------------------------------------------------------------------ *)
(** ** Concrete runs *)

(** C10. With no conjunct, the first [next] finds itself "at a
    solution" ([0 = fact_support.len()]) and calls [undo_last], whose
    [next_unsupported_fact -= 1] underflows: the call panics. *)
Theorem next_empty_query_panics (db : Database) (r : res (QueryState * option Assignment)) :
  next_rel db (QueryState_new (Query_from [])) r <-> r = Panic SubtractOverflow.
Proof. unfold next_rel. reflexivity. Qed.

(** C6. The scenario with non-dense first appearances of variable ids:
    [{Var 2, Var 1, Sym 7} ∧ {Var 2, Var 0, Sym 3}] over the test store
    yields [[2,2,2]], then [None]. *)
Theorem scenario_nondense_var_ids :
  ∃ st1 st2,
    (∀ r, next_rel test_db (QueryState_new q6) r <-> r = Ok (st1, Some [2; 2; 2]%N)) ∧
    (∀ r, next_rel test_db st1 r <-> r = Ok (st2, None)).
Proof.
  exists (next_state_fuel 100 test_db (QueryState_new q6)).
  exists (next_state_fuel 100 test_db (next_state_fuel 100 test_db (QueryState_new q6))).
  split; intros r; split.
  - intros H. eapply next_rel_det; [exact H|]. apply (next_fuel_sound 100). vm_compute. reflexivity.
  - intros ->. apply (next_fuel_sound 100). vm_compute. reflexivity.
  - intros H. eapply next_rel_det; [exact H|]. apply (next_fuel_sound 100). vm_compute. reflexivity.
  - intros ->. apply (next_fuel_sound 100). vm_compute. reflexivity.
Qed.

(** C2 (counterexample). [{Var 0, Var 0, Sym 3}] over the test store:
    the pattern is [[_, _, 3]], the first candidate [[1,2,3]] is
    accepted, and [Var 0] is bound from position 0 only; [[1]] is
    emitted although [[1,1,3]] is not in the store. *)
Lemma repeated_var_unsound :
  ¬ (∀ db q st st' A, reachable db q st -> next_rel db st (Ok (st', Some A)) ->
       ∀ C, C ∈ elems q -> in_store db (subst A C)).
Proof.
  intros H.
  destruct (H test_db qrep (QueryState_new qrep)
              (next_state_fuel 100 test_db (QueryState_new qrep)) [1%N] (reach_new _ _))
    with (C := [AVar 0; AVar 0; ASym 3]) as [facts [Hb Hin]].
  - apply (next_fuel_sound 100). vm_compute. reflexivity.
  - simpl. left.
  - simpl in Hb. injection Hb as <-. revert Hin.
    apply (bool_decide_unpack (¬ _)). vm_compute. exact I.
Qed.

(** C3 (counterexample). After the [None] that ends the enumeration of
    [q6], the next call yields [[2,2,2]] again. *)
Lemma next_after_none_restarts :
  ¬ (∀ db q st st', reachable db q st -> next_rel db st (Ok (st', None)) ->
       ∀ r, next_rel db st' r -> ∃ st'', r = Ok (st'', None)).
Proof.
  set (st1 := next_state_fuel 100 test_db (QueryState_new q6)).
  set (st2 := next_state_fuel 100 test_db st1).
  intros H.
  destruct (H test_db q6 st1 st2) with
    (r := Ok (next_state_fuel 100 test_db st2, Some [2; 2; 2]%N)) as [st'' Hr].
  - apply (reach_next _ _ (QueryState_new q6) st1 (Some [2; 2; 2]%N)); [constructor|].
    apply (next_fuel_sound 100). vm_compute. reflexivity.
  - apply (next_fuel_sound 100). vm_compute. reflexivity.
  - apply (next_fuel_sound 100). vm_compute. reflexivity.
  - discriminate.
Qed.

(** C4 (counterexample). The arity-1 bucket is empty, so no index [i ≥ 1]
    exists; yet [next_match] from cursor 1 panics on the slice
    [facts[1..]] instead of signalling no-more. *)
Lemma next_match_cursor_past_end :
  bucket Database_new 1 = Some [] ∧
  next_match Database_new [Wildcard] 1 = Panic SliceOutOfRange.
Proof. split; reflexivity. Qed.

(** C9 (counterexample). The frontend's [add_fact] stores a fact
    containing ["?x"]. *)
Lemma frontend_accepts_question_mark :
  String.prefix "?" "?x" = true ∧
  is_ok (Frontend.add_fact Frontend.new ["?x"; "on"; "table"]%string) = true.
Proof. split; reflexivity. Qed.

(* ------------------------------------------------------------------ *)
(** ** Basic facts: vectors, variables, patterns *)

Lemma vec_get_ok {A} (l : list A) i x : vec_get l i = Ok x <-> l !! i = Some x.
Proof. unfold vec_get. destruct (l !! i); split; congruence. Qed.

Lemma vec_set_ok {A} (l l' : list A) i x :
  vec_set l i x = Ok l' <-> i < length l ∧ l' = <[i:=x]> l.
Proof. unfold vec_set. case_decide; split; try naive_solver congruence. Qed.

Lemma unique_from_complete (x : nat) l : ∀ seen, x ∈ l -> x ∈ seen ∨ x ∈ unique_from seen l.
Proof.
  induction l as [|y l IH]; intros seen Hx; [by apply not_elem_of_nil in Hx|].
  simpl. apply elem_of_cons in Hx. case_decide as Hy.
  - destruct Hx as [->|Hx]; [by left|]. by apply IH.
  - destruct Hx as [->|Hx]; [right; apply elem_of_cons; by left|].
    destruct (IH (y :: seen) Hx) as [Hs|Hu].
    + apply elem_of_cons in Hs as [->|Hs]; [right; apply elem_of_cons; by left|by left].
    + right. apply elem_of_cons. by right.
Qed.

Lemma elem_of_unique (x : nat) l : x ∈ l -> x ∈ unique l.
Proof.
  intros Hx. destruct (unique_from_complete x l [] Hx) as [H|H]; [|done].
  by apply not_elem_of_nil in H.
Qed.

Lemma foldr_max_ge (x v : nat) vs : x ∈ v :: vs -> x ≤ foldr Nat.max v vs.
Proof.
  revert v. induction vs as [|w vs IH]; intros v Hx; simpl.
  - apply list_elem_of_singleton in Hx. lia.
  - apply elem_of_cons in Hx as [->|Hx].
    + assert (v ≤ foldr Nat.max v vs) by (apply IH; apply elem_of_cons; by left). lia.
    + apply elem_of_cons in Hx as [->|Hx]; [lia|].
      assert (x ≤ foldr Nat.max v vs) by (apply IH; apply elem_of_cons; by right). lia.
Qed.

(** Every variable of the query is below [num_vars]. *)
Lemma num_vars_bound (q : Query) (C : LiftedFact) v :
  C ∈ elems q -> AVar v ∈ C -> v < num_vars q.
Proof.
  intros HC Hv.
  assert (Hq : v ∈ query_vars q).
  { unfold query_vars. apply elem_of_unique. apply list_elem_of_join.
    exists (lifted_vars C). split.
    - unfold lifted_vars. apply elem_of_unique. apply list_elem_of_omap. by exists (AVar v).
    - apply list_elem_of_In. apply in_map. by apply list_elem_of_In. }
  unfold num_vars. destruct (query_vars q) as [|w vs]; [by apply not_elem_of_nil in Hq|].
  apply foldr_max_ge in Hq. lia.
Qed.

Lemma build_pattern_ok (A : list PatternAtom) (C : LiftedFact) (pat : Pattern) :
  build_pattern A C = Ok pat ->
  length pat = length C ∧
  (∀ p s, C !! p = Some (ASym s) -> pat !! p = Some (PSym s)) ∧
  (∀ p v, C !! p = Some (AVar v) -> pat !! p = A !! v).
Proof.
  revert pat. induction C as [|a C IH]; intros pat H; simpl in H.
  - injection H as <-. split; [done|]. split; intros p; done.
  - destruct (pattern_atom A a) as [x|e] eqn:Ha; [|discriminate]. simpl in H.
    destruct (build_pattern A C) as [ps|e] eqn:Hps; [|discriminate]. simpl in H.
    injection H as <-. destruct (IH ps eq_refl) as (Hl & Hs & Hv).
    split; [simpl; lia|]. split.
    + intros [|p] s Hp; simpl in Hp |- *; [|by apply Hs].
      injection Hp as ->. by injection Ha as <-.
    + intros [|p] v Hp; simpl in Hp |- *; [|by apply Hv].
      injection Hp as ->. simpl in Ha. apply vec_get_ok in Ha. done.
Qed.

Lemma build_pattern_exists (A : list PatternAtom) (C : LiftedFact) :
  (∀ v, AVar v ∈ C -> v < length A) -> ∃ pat, build_pattern A C = Ok pat.
Proof.
  induction C as [|a C IH]; intros Hv; simpl; [by eexists|].
  destruct IH as [ps Hps]; [intros v H; apply Hv; apply elem_of_cons; by right|].
  rewrite Hps. destruct a as [v|s]; simpl.
  - destruct (lookup_lt_is_Some_2 A v) as [x Hx]; [apply Hv; apply elem_of_cons; by left|].
    unfold vec_get. rewrite Hx. simpl. by eexists.
  - by eexists.
Qed.

(** A matching pattern pins the symbols of the fact. *)
Lemma matches_sym (pat : Pattern) (f : Fact) p s :
  matches pat f = true -> p < length f -> pat !! p = Some (PSym s) -> f !! p = Some s.
Proof.
  revert f p. induction pat as [|a pat IH]; intros f p Hm Hp Ha; [done|].
  destruct f as [|x f]; simpl in Hp; [lia|]. simpl in Hm. apply andb_true_iff in Hm as [Ha' Hm].
  destruct p as [|p]; simpl in Ha |- *.
  - injection Ha as ->. simpl in Ha'. apply N.eqb_eq in Ha'. by subst.
  - apply IH; [done|lia|done].
Qed.

(* ------------------------------------------------------------------ *)
(** ** The linear scan of the store *)

Lemma scan_from_some (pat : Pattern) (l : list Fact) i j f :
  scan_from pat l i = Some (j, f) ->
  i ≤ j ∧ l !! (j - i) = Some f ∧ matches pat f = true ∧
  ∀ j' g, i ≤ j' < j -> l !! (j' - i) = Some g -> matches pat g = false.
Proof.
  revert i. induction l as [|g0 l IH]; intros i H; simpl in H; [discriminate|].
  destruct (matches pat g0) eqn:Hm.
  - injection H as <- <-. rewrite Nat.sub_diag. split_and!; [lia|done|done|lia].
  - destruct (IH (S i) H) as (Hle & Hl & Hmf & Hmin). split_and!; [lia| |done|].
    + replace (j - i) with (S (j - S i)) by lia. done.
    + intros j' g Hj' Hg. destruct (decide (j' = i)) as [->|Hne].
      * rewrite Nat.sub_diag in Hg. simpl in Hg. by injection Hg as <-.
      * apply (Hmin j'); [lia|]. replace (j' - i) with (S (j' - S i)) in Hg by lia. done.
Qed.

Lemma scan_from_none (pat : Pattern) (l : list Fact) i :
  scan_from pat l i = None -> ∀ p g, l !! p = Some g -> matches pat g = false.
Proof.
  revert i. induction l as [|g0 l IH]; intros i H p g Hg; [done|]. simpl in H.
  destruct (matches pat g0) eqn:Hm; [discriminate|].
  destruct p as [|p]; simpl in Hg; [by injection Hg as <-|]. by apply (IH (S i) H p).
Qed.

Lemma next_match_some (db : Database) (pat : Pattern) c i f :
  next_match db pat c = Ok (Some (i, f)) ->
  ∃ facts, bucket db (length pat) = Some facts ∧ c ≤ i ∧ facts !! i = Some f ∧
    matches pat f = true ∧ ∀ j g, c ≤ j < i -> facts !! j = Some g -> matches pat g = false.
Proof.
  unfold next_match, db_next_match. destruct (bucket db (length pat)) as [facts|]; [|discriminate].
  case_decide as Hc; [|discriminate]. intros [= Hs]. exists facts.
  destruct (scan_from_some _ _ _ _ _ Hs) as (Hle & Hl & Hm & Hmin).
  rewrite lookup_drop in Hl. replace (c + (i - c)) with i in Hl by lia.
  split_and!; [done|done|done|done|].
  intros j g Hj Hg. apply (Hmin j); [lia|]. rewrite lookup_drop. by replace (c + (j - c)) with j by lia.
Qed.

Lemma next_match_none (db : Database) (pat : Pattern) c :
  next_match db pat c = Ok None ->
  ∃ facts, bucket db (length pat) = Some facts ∧ c ≤ length facts ∧
    ∀ j g, c ≤ j -> facts !! j = Some g -> matches pat g = false.
Proof.
  unfold next_match, db_next_match. destruct (bucket db (length pat)) as [facts|]; [|discriminate].
  case_decide as Hc; [|discriminate]. intros [= Hs]. exists facts. split_and!; [done|done|].
  intros j g Hj Hg. apply (scan_from_none _ _ _ Hs (j - c)). rewrite lookup_drop.
  by replace (c + (j - c)) with j by lia.
Qed.

Lemma next_match_exists (db : Database) (pat : Pattern) c facts :
  bucket db (length pat) = Some facts -> c ≤ length facts -> ∃ r, next_match db pat c = Ok r.
Proof.
  intros Hb Hc. unfold next_match, db_next_match. rewrite Hb. case_decide; [by eexists|lia].
Qed.

Lemma bucket_arity (db : Database) n : is_Some (bucket db n) <-> 1 ≤ n ≤ 6.
Proof.
  split.
  - destruct n as [|[|[|[|[|[|[|n]]]]]]]; simpl; intros [x Hx]; try discriminate; lia.
  - intros Hn. destruct n as [|[|[|[|[|[|[|n]]]]]]]; simpl; try (by eexists); lia.
Qed.

(** C4 (amended). For a pattern whose arity has a bucket (arity 1 to
    6) and a cursor [c] not past the end of that bucket, [next_match]
    returns the smallest index [i ≥ c] whose fact matches, with that
    fact, and no-more exactly when no index [≥ c] matches. A cursor past
    the end of the bucket panics, and so does a pattern of any other
    arity. *)
Theorem next_match_first_match (db : Database) (pat : Pattern) (c : nat) (facts : list Fact) :
  bucket db (length pat) = Some facts -> c ≤ length facts ->
  (∃ r, next_match db pat c = Ok r ∧
    (∀ i f, r = Some (i, f) <->
       c ≤ i ∧ facts !! i = Some f ∧ matches pat f = true ∧
       ∀ j g, c ≤ j < i -> facts !! j = Some g -> matches pat g = false) ∧
    (r = None <-> ∀ j g, c ≤ j -> facts !! j = Some g -> matches pat g = false)) ∧
  (∀ c', length facts < c' -> next_match db pat c' = Panic SliceOutOfRange) ∧
  (∀ pat' c', ¬ (1 ≤ length pat' ≤ 6) -> next_match db pat' c' = Panic UnsupportedArity).
Proof.
  intros Hb Hc. split_and!.
  - destruct (next_match_exists db pat c facts Hb Hc) as [r Hr]. exists r. split; [done|].
    split.
    + intros i f. split.
      * intros ->. destruct (next_match_some _ _ _ _ _ Hr) as (facts' & Hb' & H).
        rewrite Hb in Hb'. by injection Hb' as <-.
      * intros (Hci & Hf & Hm & Hmin). destruct r as [[i' f']|].
        -- destruct (next_match_some _ _ _ _ _ Hr) as (facts' & Hb' & Hci' & Hf' & Hm' & Hmin').
           rewrite Hb in Hb'. injection Hb' as <-.
           destruct (decide (i = i')) as [<-|Hne].
           ++ rewrite Hf in Hf'. by injection Hf' as <-.
           ++ destruct (decide (i < i')).
              ** rewrite (Hmin' i f) in Hm; [discriminate|lia|done].
              ** rewrite (Hmin i' f') in Hm'; [discriminate|lia|done].
        -- destruct (next_match_none _ _ _ Hr) as (facts' & Hb' & _ & Hnone).
           rewrite Hb in Hb'. injection Hb' as <-. rewrite (Hnone i f) in Hm; [discriminate|lia|done].
    + split.
      * intros ->. destruct (next_match_none _ _ _ Hr) as (facts' & Hb' & _ & Hnone).
        rewrite Hb in Hb'. by injection Hb' as <-.
      * intros Hnone. destruct r as [[i f]|]; [|done].
        destruct (next_match_some _ _ _ _ _ Hr) as (facts' & Hb' & Hci & Hf & Hm & _).
        rewrite Hb in Hb'. injection Hb' as <-. rewrite (Hnone i f) in Hm; [discriminate|lia|done].
  - intros c' Hc'. unfold next_match, db_next_match. rewrite Hb. case_decide; [lia|done].
  - intros pat' c' Har. unfold next_match.
    destruct (bucket db (length pat')) eqn:Hb'; [|done].
    exfalso. apply Har. apply (bucket_arity db). by rewrite Hb'.
Qed.

(* ------------------------------------------------------------------ *)
(** ** Binding variables, and undoing bindings *)

Lemma bind_vars_spec k i (atoms : list Atom) (f : Fact) (A A' : list PatternAtom)
    (tr tr' : list (nat * Var)) :
  bind_vars k i atoms f A tr = Ok (A', tr') ->
  ∃ pushed, tr' = pushed ++ tr ∧
    NoDup (map snd pushed) ∧
    (∀ j v, (j, v) ∈ pushed -> j = k ∧ A !! v = Some Wildcard ∧ AVar v ∈ atoms) ∧
    (∀ v, AVar v ∈ atoms -> A !! v = Some Wildcard -> v ∈ map snd pushed) ∧
    length A' = length A ∧
    (∀ v, v ∈ map snd pushed -> ∃ x, A' !! v = Some (PSym x)) ∧
    (∀ v, v ∉ map snd pushed -> A' !! v = A !! v) ∧
    (∀ p v, first_occ atoms p v -> A !! v = Some Wildcard ->
       ∃ x, f !! (i + p) = Some x ∧ A' !! v = Some (PSym x)).
Proof.
  revert i A tr. induction atoms as [|a atoms IH]; intros i A tr H; simpl in H.
  - injection H as <- <-. exists []. split_and!; try done; try set_solver; [constructor|].
    intros p v [Hp _]. done.
  - destruct a as [v|s].
    + destruct (vec_get A v) as [a|e] eqn:Ha; [|discriminate]. simpl in H.
      apply vec_get_ok in Ha. case_decide as Hw.
      * subst a. destruct (vec_get f i) as [s|e] eqn:Hs; [|discriminate]. simpl in H.
        apply vec_get_ok in Hs.
        destruct (vec_set A v (PSym s)) as [A1|e] eqn:HA1; [|discriminate]. simpl in H.
        apply vec_set_ok in HA1 as [Hv HA1]. subst A1.
        destruct (IH _ _ _ H) as (p1 & -> & Hnd & Hent & Hall & Hlen & Hbd & Hun & Hfo).
        assert (Hvp : v ∉ map snd p1).
        { intros Hin. apply list_elem_of_In, in_map_iff in Hin as [[j w] [Hw Hin]].
          simpl in Hw. subst w. apply list_elem_of_In in Hin.
          destruct (Hent j v Hin) as (_ & Hwv & _). by rewrite list_lookup_insert_eq in Hwv. }
        exists (p1 ++ [(k, v)]). rewrite <- app_assoc. split; [done|].
        rewrite map_app. simpl. split_and!.
        -- apply NoDup_app. split_and!; [done| |by apply NoDup_singleton].
           intros x Hx Hx'. apply list_elem_of_singleton in Hx'. subst. done.
        -- intros j w Hjw. apply elem_of_app in Hjw as [Hjw|Hjw].
           ++ destruct (Hent j w Hjw) as (Hj & Hww & Hwa).
              destruct (decide (w = v)) as [->|Hne]; [by rewrite list_lookup_insert_eq in Hww|].
              rewrite list_lookup_insert_ne in Hww; [|done].
              split_and!; [done|done|apply elem_of_cons; by right].
           ++ apply list_elem_of_singleton in Hjw. injection Hjw as -> ->.
              split_and!; [done|done|apply elem_of_cons; by left].
        -- intros w Hwa HwA. apply elem_of_app.
           destruct (decide (w = v)) as [->|Hne]; [right; by apply list_elem_of_singleton|].
           left. apply Hall; [by apply elem_of_cons in Hwa as [[= ->]|]|].
           by rewrite list_lookup_insert_ne.
        -- by rewrite Hlen, length_insert.
        -- intros w Hw. apply elem_of_app in Hw as [Hw|Hw]; [by apply Hbd|].
           apply list_elem_of_singleton in Hw. subst w.
           exists s. rewrite (Hun v Hvp). by apply list_lookup_insert_eq.
        -- intros w Hw. rewrite elem_of_app, list_elem_of_singleton in Hw.
           rewrite Hun; [|naive_solver]. apply list_lookup_insert_ne. naive_solver.
        -- intros [|p] w [Hp Hfirst] HwA; simpl in Hp.
           ++ injection Hp as <-. exists s. rewrite Nat.add_0_r. split; [done|].
              rewrite (Hun v Hvp). by apply list_lookup_insert_eq.
           ++ assert (w ≠ v) as Hne.
              { intros ->. apply (Hfirst 0); [lia|done]. }
              destruct (Hfo p w) as (x & Hx & HA'); [|by rewrite list_lookup_insert_ne|].
              ** split; [done|]. intros p' Hp'. apply (Hfirst (S p')). lia.
              ** exists x. by rewrite <- Nat.add_succ_comm.
      * destruct (IH _ _ _ H) as (p1 & -> & Hnd & Hent & Hall & Hlen & Hbd & Hun & Hfo).
        exists p1. split_and!; try done.
        -- intros j w Hjw. destruct (Hent j w Hjw) as (? & ? & ?).
           split_and!; [done|done|apply elem_of_cons; by right].
        -- intros w Hwa HwA. apply elem_of_cons in Hwa as [[= ->]|Hwa]; [congruence|].
           by apply Hall.
        -- intros [|p] w [Hp Hfirst] HwA; simpl in Hp.
           ++ injection Hp as <-. congruence.
           ++ destruct (Hfo p w) as (x & Hx & HA'); [|done|].
              ** split; [done|]. intros p' Hp'. apply (Hfirst (S p')). lia.
              ** exists x. by rewrite <- Nat.add_succ_comm.
    + destruct (IH _ _ _ H) as (p1 & -> & Hnd & Hent & Hall & Hlen & Hbd & Hun & Hfo).
      exists p1. split_and!; try done.
      * intros j w Hjw. destruct (Hent j w Hjw) as (? & ? & ?).
        split_and!; [done|done|apply elem_of_cons; by right].
      * intros w Hwa HwA. apply elem_of_cons in Hwa as [[=]|Hwa]. by apply Hall.
      * intros [|p] w [Hp Hfirst] HwA; simpl in Hp; [discriminate|].
        destruct (Hfo p w) as (x & Hx & HA'); [|done|].
        -- split; [done|]. intros p' Hp'. apply (Hfirst (S p')). lia.
        -- exists x. by rewrite <- Nat.add_succ_comm.
Qed.

Lemma undo_trail_spec k (A A' : list PatternAtom) (tr tr' : list (nat * Var)) :
  undo_trail k A tr = Ok (A', tr') ->
  ∃ popped, tr = popped ++ tr' ∧ Forall (fun e => fst e = k) popped ∧
    (∀ j v tr'', tr' = (j, v) :: tr'' -> j ≠ k) ∧
    length A' = length A ∧
    (∀ v, v ∈ map snd popped -> A' !! v = Some Wildcard) ∧
    (∀ v, v ∉ map snd popped -> A' !! v = A !! v).
Proof.
  revert A. induction tr as [|[j v] tr IH]; intros A H; simpl in H.
  - injection H as <- <-. exists []. split_and!; try done; set_solver.
  - case_decide as Hj.
    + subst j. destruct (vec_set A v Wildcard) as [A1|e] eqn:HA1; [|discriminate]. simpl in H.
      apply vec_set_ok in HA1 as [Hv ->].
      destruct (IH _ H) as (popped & -> & Hfst & Hhd & Hlen & Hw & Hun).
      exists ((k, v) :: popped). split_and!; try done.
      * by constructor.
      * by rewrite Hlen, length_insert.
      * intros w Hw'. simpl in Hw'. apply elem_of_cons in Hw' as [->|Hw'].
        -- destruct (decide (v ∈ map snd popped)) as [Hin|Hnin]; [by apply Hw|].
           rewrite Hun; [|done]. by apply list_lookup_insert_eq.
        -- by apply Hw.
      * intros w Hw'. simpl in Hw'. apply not_elem_of_cons in Hw' as [Hne Hw'].
        rewrite Hun; [|done]. by apply list_lookup_insert_ne.
    + injection H as <- <-. exists []. split_and!; try done; try set_solver.
Qed.

Lemma undo_trail_exists k (A : list PatternAtom) (tr : list (nat * Var)) :
  (∀ v, v ∈ map snd tr -> v < length A) -> ∃ r, undo_trail k A tr = Ok r.
Proof.
  revert A. induction tr as [|[j v] tr IH]; intros A Hv; simpl; [by eexists|].
  case_decide; [|by eexists].
  unfold vec_set. case_decide as Hlt; [|exfalso; apply Hlt, Hv; simpl; apply elem_of_cons; by left].
  simpl. apply IH. intros w Hw. rewrite length_insert. apply Hv. simpl. apply elem_of_cons. by right.
Qed.

Lemma trail_ordered_mono n m (tr : list (nat * Var)) :
  trail_ordered n tr -> n ≤ m -> trail_ordered m tr.
Proof. destruct tr as [|[j v] tr]; simpl; [done|]. intros [Hj Htr] Hnm. split; [lia|done]. Qed.

Lemma trail_ordered_lt n (tr : list (nat * Var)) j v :
  trail_ordered n tr -> (j, v) ∈ tr -> j < n.
Proof.
  revert n. induction tr as [|[j' v'] tr IH]; intros n Htr Hin; [by apply not_elem_of_nil in Hin|].
  simpl in Htr. destruct Htr as [Hj' Htr]. apply elem_of_cons in Hin as [[= -> ->]|Hin]; [done|].
  specialize (IH _ Htr Hin). lia.
Qed.

Lemma trail_ordered_app_r n (l1 l2 : list (nat * Var)) :
  trail_ordered n (l1 ++ l2) -> trail_ordered n l2.
Proof.
  revert n. induction l1 as [|[j v] l1 IH]; intros n H; [done|].
  simpl in H. destruct H as [Hj H]. apply IH in H. eapply trail_ordered_mono; [done|lia].
Qed.

Lemma trail_ordered_push n k (pushed tr : list (nat * Var)) :
  Forall (fun e => fst e = k) pushed -> k < n -> trail_ordered k tr ->
  trail_ordered n (pushed ++ tr).
Proof.
  intros Hp. revert n. induction Hp as [|[j v] pushed Hj Hp IH]; intros n Hk Htr; simpl in *.
  - eapply trail_ordered_mono; [done|lia].
  - subst j. split; [done|]. apply IH; [lia|done].
Qed.

(** After the entries of fact [k] are popped, the trail is ordered
    below [k]. *)
Lemma trail_ordered_after_pop k (popped tr : list (nat * Var)) :
  trail_ordered (S k) (popped ++ tr) ->
  (∀ j v tr'', tr = (j, v) :: tr'' -> j ≠ k) -> trail_ordered k tr.
Proof.
  intros H Hhd. apply trail_ordered_app_r in H. destruct tr as [|[j v] tr]; [done|].
  simpl in H |- *. destruct H as [Hj H]. specialize (Hhd j v tr eq_refl). split; [lia|done].
Qed.

Lemma undo_last_unfold (st st' : QueryState) :
  undo_last st = Ok st' ->
  ∃ k c A' popped,
    next_unsupported_fact st = S k ∧ fact_support st !! k = Some c ∧
    st' = mkQS (query st) (<[k := S c]> (fact_support st)) A' k (drop (length popped) (trail st)) ∧
    trail st = popped ++ drop (length popped) (trail st) ∧
    Forall (fun e => fst e = k) popped ∧
    (∀ j v tr'', drop (length popped) (trail st) = (j, v) :: tr'' -> j ≠ k) ∧
    length A' = length (assignment st) ∧
    (∀ v, v ∈ map snd popped -> A' !! v = Some Wildcard) ∧
    (∀ v, v ∉ map snd popped -> A' !! v = assignment st !! v).
Proof.
  destruct st as [q fs A nuf tr]. unfold undo_last. simpl.
  destruct nuf as [|k]; simpl; [discriminate|].
  destruct (vec_get fs k) as [c|e] eqn:Hc; [|discriminate]. simpl. apply vec_get_ok in Hc.
  destruct (vec_set fs k (S c)) as [fs'|e] eqn:Hfs; [|discriminate]. simpl.
  apply vec_set_ok in Hfs as [Hk ->].
  destruct (undo_trail k A tr) as [[A' tr']|e] eqn:Hu; [|discriminate]. simpl. intros [= <-].
  destruct (undo_trail_spec _ _ _ _ _ Hu) as (popped & -> & Hfst & Hhd & Hlen & Hw & Hun).
  exists k, c, A', popped. rewrite drop_app_length. split_and!; done.
Qed.

(** C7. Backtracking fact [k] ([undo_last] from [next_unsupported_fact
    = k + 1], on a trail ordered by fact index and binding each variable
    once) resets to [Wildcard] every variable whose binding was recorded
    at [k], and keeps the slot and the trail entry of every variable
    bound at an earlier fact. Binding the variables of fact [k] pushes
    one entry [(k, v)] for each variable [v] of the fact that was
    unbound, and none for a variable already bound (nor for a second
    occurrence). *)
Theorem trail_correct :
  (∀ (st st' : QueryState) k,
     next_unsupported_fact st = S k ->
     trail_ordered (S k) (trail st) -> NoDup (map snd (trail st)) ->
     undo_last st = Ok st' ->
     next_unsupported_fact st' = k ∧
     (∀ v, (k, v) ∈ trail st -> assignment st' !! v = Some Wildcard) ∧
     (∀ j v, (j, v) ∈ trail st -> j < k ->
        assignment st' !! v = assignment st !! v ∧ (j, v) ∈ trail st')) ∧
  (∀ k (atoms : list Atom) (f : Fact) (A A' : list PatternAtom) (tr tr' : list (nat * Var)),
     bind_vars k 0 atoms f A tr = Ok (A', tr') ->
     ∃ pushed, tr' = pushed ++ tr ∧ NoDup (map snd pushed) ∧
       (∀ j v, (j, v) ∈ pushed -> j = k ∧ A !! v = Some Wildcard ∧ AVar v ∈ atoms) ∧
       (∀ v, AVar v ∈ atoms -> A !! v = Some Wildcard -> (k, v) ∈ pushed)).
Proof.
  split.
  - intros st st' k Hnuf Hord Hnd Hu.
    destruct (undo_last_unfold _ _ Hu) as (k' & c & A' & popped & Hnuf' & Hc & -> & Htr & Hfst & Hhd & Hlen & Hw & Hun).
    rewrite Hnuf in Hnuf'. injection Hnuf' as <-. simpl.
    set (rest := drop (length popped) (trail st)) in *.
    rewrite Htr in Hord, Hnd.
    pose proof (trail_ordered_after_pop _ _ _ Hord Hhd) as Hrest.
    split_and!; [done| |].
    + intros v Hv. apply Hw. rewrite Htr in Hv. apply elem_of_app in Hv as [Hv|Hv].
      * apply list_elem_of_In, in_map_iff. exists (k, v). split; [done|]. by apply list_elem_of_In.
      * pose proof (trail_ordered_lt _ _ _ _ Hrest Hv). lia.
    + intros j v Hv Hj. rewrite Htr in Hv. apply elem_of_app in Hv as [Hv|Hv].
      * rewrite Forall_forall in Hfst. specialize (Hfst _ Hv). simpl in Hfst. lia.
      * split; [|done]. apply Hun. intros Hp. rewrite map_app in Hnd.
        apply NoDup_app in Hnd as (_ & Hdisj & _). apply (Hdisj v Hp).
        apply list_elem_of_In, in_map_iff. exists (j, v). split; [done|]. by apply list_elem_of_In.
  - intros k atoms f A A' tr tr' Hb.
    destruct (bind_vars_spec _ _ _ _ _ _ _ _ Hb) as (pushed & -> & Hnd & Hent & Hall & _).
    exists pushed. split_and!; [done|done|done|].
    intros v Hv HA. specialize (Hall v Hv HA).
    apply list_elem_of_In, in_map_iff in Hall as [[j w] [Hw Hin]]. simpl in Hw. subst w.
    apply list_elem_of_In in Hin. destruct (Hent j v Hin) as (-> & _). done.
Qed.

(* ------------------------------------------------------------------ *)
(** ** The invariant of the evaluator *)

Lemma db_wf_bucket (db : Database) n facts i (f : Fact) :
  db_wf db -> bucket db n = Some facts -> facts !! i = Some f -> length f = n.
Proof.
  intros (H1 & H2 & H3 & H4 & H5 & H6) Hb Hf.
  destruct n as [|[|[|[|[|[|[|n]]]]]]]; simpl in Hb; try discriminate; injection Hb as <-;
    match goal with
    | H : Forall _ ?l, Hl : ?l !! _ = Some _ |- _ => exact (proj1 (Forall_lookup _ _) H _ _ Hl)
    end.
Qed.

Lemma inv_new (db : Database) (q : Query) : Inv db (QueryState_new q).
Proof.
  constructor; simpl.
  - apply length_replicate.
  - apply length_replicate.
  - lia.
  - done.
  - constructor.
  - intros v. split; [intros Hv; by apply not_elem_of_nil in Hv|].
    intros [x Hx]. apply lookup_replicate in Hx as [[=] _].
  - intros j v Hv. by apply not_elem_of_nil in Hv.
  - intros j C Hj. lia.
  - intros j _ Hj. apply lookup_replicate. done.
  - intros C facts c _ _ Hc. apply lookup_replicate in Hc as [-> _]. lia.
Qed.

Lemma in_popped_app (popped rest : list (nat * Var)) k j v :
  Forall (fun e => fst e = k) popped -> NoDup (map snd (popped ++ rest)) ->
  (j, v) ∈ popped ++ rest -> j < k -> (j, v) ∈ rest ∧ v ∉ map snd popped.
Proof.
  intros Hfst Hnd Hin Hj. rewrite map_app in Hnd. apply NoDup_app in Hnd as (_ & Hdisj & _).
  apply elem_of_app in Hin as [Hin|Hin].
  - rewrite Forall_forall in Hfst. specialize (Hfst _ Hin). simpl in Hfst. lia.
  - split; [done|]. intros Hp. apply (Hdisj v Hp).
    apply list_elem_of_In, in_map_iff. exists (j, v). split; [done|]. by apply list_elem_of_In.
Qed.

Lemma elem_of_map_snd (tr : list (nat * Var)) j v : (j, v) ∈ tr -> v ∈ map snd tr.
Proof.
  intros H. apply list_elem_of_In, in_map_iff. exists (j, v). split; [done|]. by apply list_elem_of_In.
Qed.

Lemma elem_of_map_snd_inv (tr : list (nat * Var)) v : v ∈ map snd tr -> ∃ j, (j, v) ∈ tr.
Proof.
  intros H. apply list_elem_of_In, in_map_iff in H as [[j w] [Hw H]]. simpl in Hw. subst w.
  exists j. by apply list_elem_of_In.
Qed.

(** [undo_last] from a state of the invariant whose current cursor is
    reset (or which stands on a solution) succeeds and keeps the
    invariant. *)
Lemma inv_undo (db : Database) (st : QueryState) k :
  Inv db st -> next_unsupported_fact st = S k ->
  (∀ c, fact_support st !! S k = Some c -> c = 0) ->
  ∃ st', undo_last st = Ok st' ∧ Inv db st' ∧ query st' = query st ∧
    next_unsupported_fact st' = k ∧
    ∃ c, fact_support st !! k = Some c ∧ fact_support st' = <[k := S c]> (fact_support st).
Proof.
  intros Hinv Hnuf Hcur.
  assert (Hex : ∃ st', undo_last st = Ok st').
  { destruct st as [q fs A nuf tr]. simpl in *. subst nuf. unfold undo_last. simpl.
    destruct (lookup_lt_is_Some_2 fs k) as [c Hc].
    { pose proof (inv_support_len _ _ Hinv). pose proof (inv_nuf_le _ _ Hinv). simpl in *. lia. }
    unfold vec_get. rewrite Hc. simpl. unfold vec_set. case_decide as Hk; [|by apply lookup_lt_Some in Hc].
    simpl. destruct (undo_trail_exists k A tr) as [[A' tr'] ->].
    - intros v Hv. apply (inv_bound_iff _ _ Hinv) in Hv as [x Hx]. by apply lookup_lt_Some in Hx.
    - simpl. by eexists. }
  destruct Hex as [st' Hu]. exists st'. split; [done|].
  destruct (undo_last_unfold _ _ Hu) as (k' & c & A' & popped & Hnuf' & Hc & -> & Htr & Hfst & Hhd & Hlen & Hw & Hun).
  rewrite Hnuf in Hnuf'. injection Hnuf' as <-.
  set (rest := drop (length popped) (trail st)) in *.
  pose proof (inv_trail_ordered _ _ Hinv) as Hord. rewrite Hnuf, Htr in Hord.
  pose proof (inv_trail_nodup _ _ Hinv) as Hnd. rewrite Htr in Hnd.
  pose proof (inv_support_len _ _ Hinv) as Hslen.
  pose proof (inv_nuf_le _ _ Hinv) as Hle. rewrite Hnuf in Hle.
  split_and!; [|done|done|by exists c].
  constructor; simpl.
  - by rewrite length_insert.
  - rewrite Hlen. apply (inv_assign_len _ _ Hinv).
  - lia.
  - by apply (trail_ordered_after_pop _ popped).
  - rewrite map_app in Hnd. by apply NoDup_app in Hnd as (_ & _ & ?).
  - intros v. split.
    + intros Hv. destruct (elem_of_map_snd_inv _ _ Hv) as [j Hj].
      assert (Hjk : j < k) by (apply (trail_ordered_lt k rest j v); [by apply (trail_ordered_after_pop _ popped)|done]).
      destruct (in_popped_app popped rest k j v) as [_ Hnp]; [done|done|apply elem_of_app; by right|done|].
      rewrite Hun; [|done]. apply (inv_bound_iff _ _ Hinv). rewrite Htr, map_app. apply elem_of_app. by right.
    + intros [x Hx]. destruct (decide (v ∈ map snd popped)) as [Hp|Hnp]; [rewrite Hw in Hx; [discriminate|done]|].
      rewrite Hun in Hx; [|done]. assert (Hv : v ∈ map snd (trail st)) by (apply (inv_bound_iff _ _ Hinv); eauto).
      rewrite Htr, map_app in Hv. apply elem_of_app in Hv as [Hv|Hv]; [done|done].
  - intros j v Hv. apply (inv_trail_var _ _ Hinv). rewrite Htr. apply elem_of_app. by right.
  - intros j C Hj HC.
    destruct (inv_supported _ _ Hinv j C) as (facts & i & f & Hb & Hi & Hf & Hsup & Htrail); [lia|done|].
    exists facts, i, f. split_and!; [done| |done| |].
    + rewrite list_lookup_insert_ne; [done|lia].
    + destruct Hsup as (Hlf & Hsym & Hfo). split_and!; [done|done|].
      intros p v Hpv. destruct (Hfo p v Hpv) as (x & Hx & HAx). exists x. split; [done|].
      destruct (Htrail v) as (j' & Hj' & Hin); [destruct Hpv as [Hpv _]; by apply list_elem_of_lookup_2 in Hpv|].
      rewrite Htr in Hin. destruct (in_popped_app popped rest k j' v) as [_ Hnp]; [done|done|done|lia|].
      by rewrite Hun.
    + intros v Hv. destruct (Htrail v Hv) as (j' & Hj' & Hin). exists j'. split; [done|].
      rewrite Htr in Hin. by destruct (in_popped_app popped rest k j' v) as [? _]; [done|done|done|lia|].
  - intros j Hj Hjn. rewrite list_lookup_insert_ne; [|lia].
    destruct (decide (j = S k)) as [->|Hne].
    + destruct (lookup_lt_is_Some_2 (fact_support st) (S k)) as [c' Hc']; [lia|].
      rewrite Hc'. by rewrite (Hcur c' Hc').
    + apply (inv_fresh _ _ Hinv); [rewrite Hnuf; lia|done].
  - intros C facts c' HC Hb Hc'.
    rewrite list_lookup_insert_eq in Hc'; [|apply lookup_lt_Some in Hc; done]. injection Hc' as <-.
    destruct (inv_supported _ _ Hinv k C) as (facts' & i & f & Hb' & Hi & Hf & _); [lia|done|].
    rewrite Hb in Hb'. injection Hb' as <-. rewrite Hc in Hi. injection Hi as <-.
    apply lookup_lt_Some in Hf. lia.
Qed.

(** What an iteration of the loop does, read off [step]. *)
Lemma step_cases (db : Database) (st : QueryState) o :
  step db st = Ok o ->
  let '(mkQS q fs A k tr) := st in
  ∃ C pat c, elems q !! k = Some C ∧ build_pattern A C = Ok pat ∧ fs !! k = Some c ∧
  ((∃ i f A' tr', next_match db pat c = Ok (Some (i, f)) ∧
      bind_vars k 0 C f A tr = Ok (A', tr') ∧
      o = Continue (mkQS q (<[k:=i]> fs) A' (S k) tr')) ∨
   (next_match db pat c = Ok None ∧
      ((k = 0 ∧ o = ReturnNone (mkQS q (<[k:=0]> fs) A k tr)) ∨
       (k ≠ 0 ∧ ∃ st', undo_last (mkQS q (<[k:=0]> fs) A k tr) = Ok st' ∧ o = Continue st')))).
Proof.
  destruct st as [q fs A k tr]. unfold step.
  destruct (vec_get (elems q) k) as [C|e] eqn:HC; [|discriminate]. cbn -[undo_last]. apply vec_get_ok in HC.
  destruct (build_pattern A C) as [pat|e] eqn:Hpat; [|discriminate]. cbn -[undo_last].
  destruct (vec_get fs k) as [c|e] eqn:Hc; [|discriminate]. cbn -[undo_last]. apply vec_get_ok in Hc.
  destruct (next_match db pat c) as [[[i f]|]|e] eqn:Hm; cbn -[undo_last]; [| |discriminate].
  - destruct (bind_vars k 0 C f A tr) as [[A' tr']|e] eqn:Hb; [|discriminate]. cbn -[undo_last].
    unfold vec_set. case_decide as Hk; [|discriminate]. cbn -[undo_last]. intros [= <-].
    exists C, pat, c. split_and!; [done|done|done|]. left. by exists i, f, A', tr'.
  - destruct (vec_set fs k 0) as [fs1|e] eqn:Hfs; [|cbn -[undo_last]; discriminate].
    apply vec_set_ok in Hfs as [Hk ->]. cbn -[undo_last]. intros Ho.
    exists C, pat, c. split_and!; [done|done|done|]. right. split; [done|].
    destruct (decide (k = 0)) as [Hk0|Hk0].
    + left. split; [done|]. subst k. cbn -[undo_last] in Ho. by injection Ho as <-.
    + right. split; [done|].
      destruct (undo_last _) as [st'|e] eqn:Hu; [|discriminate]. cbn -[undo_last] in Ho.
      injection Ho as <-. by exists st'.
Qed.

(** A successful forward step keeps the invariant. *)
Lemma inv_forward (db : Database) (q : Query) fs (A A' : list PatternAtom) k
    (tr tr' : list (nat * Var)) C pat c i (f : Fact) :
  Inv db (mkQS q fs A k tr) -> db_wf db ->
  elems q !! k = Some C -> build_pattern A C = Ok pat -> fs !! k = Some c ->
  next_match db pat c = Ok (Some (i, f)) -> bind_vars k 0 C f A tr = Ok (A', tr') ->
  Inv db (mkQS q (<[k:=i]> fs) A' (S k) tr').
Proof.
  intros Hinv Hwf HC Hpat Hc Hm Hb.
  destruct (next_match_some _ _ _ _ _ Hm) as (facts & Hbk & Hci & Hf & Hmf & _).
  destruct (build_pattern_ok _ _ _ Hpat) as (Hplen & Hpsym & Hpvar).
  rewrite Hplen in Hbk.
  pose proof (db_wf_bucket _ _ _ _ _ Hwf Hbk Hf) as Hflen.
  destruct (bind_vars_spec _ _ _ _ _ _ _ _ Hb) as (pushed & -> & Hnd & Hent & Hall & Hlen & Hbd & Hun & Hfo).
  destruct Hinv as [Hslen Halen Hle Hord Htnd Hbiff Htvar Hsupp Hfresh Hcur]; simpl in *.
  assert (Hk : k < length (elems q)) by (apply lookup_lt_Some in HC; done).
  assert (HCq : C ∈ elems q) by (by apply list_elem_of_lookup_2 in HC).
  assert (Hfst : Forall (fun e => fst e = k) pushed).
  { apply Forall_forall. intros [j v] Hin. by destruct (Hent j v Hin) as (-> & _). }
  assert (Hdisj : ∀ v, v ∈ map snd pushed -> v ∉ map snd tr).
  { intros v Hp Ht. destruct (elem_of_map_snd_inv _ _ Hp) as [j Hj].
    destruct (Hent j v Hj) as (_ & HW & _). apply Hbiff in Ht as [x Hx]. congruence. }
  (* bound variables keep their value *)
  assert (Hkeep : ∀ v x, A !! v = Some (PSym x) -> A' !! v = Some (PSym x)).
  { intros v x Hx. rewrite Hun; [done|]. intros Hp. apply (Hdisj v Hp). apply Hbiff. eauto. }
  constructor; simpl.
  - by rewrite length_insert.
  - by rewrite Hlen.
  - lia.
  - apply (trail_ordered_push _ k); [done|lia|done].
  - rewrite map_app. apply NoDup_app. split_and!; [done|done|done].
  - intros v. rewrite map_app, elem_of_app. split.
    + intros [Hp|Ht]; [by apply Hbd|]. apply Hbiff in Ht as [x Hx]. exists x. by apply Hkeep.
    + intros [x Hx]. destruct (decide (v ∈ map snd pushed)) as [Hp|Hnp]; [by left|].
      right. rewrite Hun in Hx; [|done]. apply Hbiff. eauto.
  - intros j v Hin. apply elem_of_app in Hin as [Hin|Hin]; [|by apply Htvar].
    destruct (Hent j v Hin) as (-> & _ & Hv). by exists C.
  - intros j C' Hj HC'. destruct (decide (j = k)) as [->|Hne].
    + rewrite HC in HC'. injection HC' as <-.
      exists facts, i, f. split_and!; [done| |done| |].
      * rewrite list_lookup_insert_eq; [done|]. by apply lookup_lt_Some in Hc.
      * split_and!; [done| |].
        -- intros p s Hp. apply (matches_sym pat); [done| |by apply Hpsym].
           rewrite Hflen. by apply lookup_lt_Some in Hp.
        -- intros p v Hfirst. pose proof (Hpvar p v (proj1 Hfirst)) as Hpv.
           destruct (A !! v) as [a|] eqn:HAv.
           ++ destruct a as [|x].
              ** destruct (Hfo p v Hfirst HAv) as (x & Hx & HA'). by exists x.
              ** exists x. split; [|by apply Hkeep].
                 apply (matches_sym pat); [done| |done].
                 rewrite Hflen. apply lookup_lt_Some in Hpv as Hp. rewrite Hplen in Hp. done.
           ++ exfalso. apply lookup_ge_None in HAv.
              pose proof (num_vars_bound q C v HCq (list_elem_of_lookup_2 _ _ _ (proj1 Hfirst))). lia.
      * intros v Hv. pose proof (num_vars_bound q C v HCq Hv) as Hvn.
        rewrite <- Halen in Hvn. destruct (lookup_lt_is_Some_2 A v Hvn) as [[|x] HAv].
        -- exists k. split; [done|]. apply elem_of_app. left.
           destruct (elem_of_map_snd_inv _ _ (Hall v Hv HAv)) as [j Hj0].
           by destruct (Hent j v Hj0) as (-> & _).
        -- assert (Ht : v ∈ map snd tr) by (apply Hbiff; eauto).
           destruct (elem_of_map_snd_inv _ _ Ht) as [j Hj0]. exists j. split.
           ++ pose proof (trail_ordered_lt _ _ _ _ Hord Hj0). lia.
           ++ apply elem_of_app. by right.
    + destruct (Hsupp j C') as (facts' & i' & f' & Hb' & Hi' & Hf' & Hsup & Htrail); [lia|done|].
      exists facts', i', f'. split_and!; [done| |done| |].
      * by rewrite list_lookup_insert_ne.
      * destruct Hsup as (Hl & Hs & Hv). split_and!; [done|done|].
        intros p v Hpv. destruct (Hv p v Hpv) as (x & Hx & HAx). exists x. split; [done|]. by apply Hkeep.
      * intros v Hv. destruct (Htrail v Hv) as (j' & Hj' & Hin). exists j'. split; [done|].
        apply elem_of_app. by right.
  - intros j Hj Hjn. rewrite list_lookup_insert_ne; [|lia]. apply Hfresh; [lia|done].
  - intros C' facts' c' HC' Hb' Hc'. rewrite list_lookup_insert_ne in Hc'; [|lia].
    rewrite (Hfresh (S k)) in Hc'; [|lia|by apply lookup_lt_Some in HC'].
    injection Hc' as <-. lia.
Qed.

(** Resetting the cursor of the current fact keeps the invariant. *)
Lemma inv_reset (db : Database) (q : Query) fs (A : list PatternAtom) k (tr : list (nat * Var)) :
  Inv db (mkQS q fs A k tr) -> k < length fs -> Inv db (mkQS q (<[k:=0]> fs) A k tr).
Proof.
  intros [Hslen Halen Hle Hord Htnd Hbiff Htvar Hsupp Hfresh Hcur] Hk; simpl in *.
  constructor; simpl; try done.
  - by rewrite length_insert.
  - intros j C Hj HC. destruct (Hsupp j C) as (facts & i & f & Hb & Hi & Hf & Hs & Ht); [done|done|].
    exists facts, i, f. split_and!; try done. rewrite list_lookup_insert_ne; [done|lia].
  - intros j Hj Hjn. rewrite list_lookup_insert_ne; [|lia]. by apply Hfresh.
  - intros C facts c _ _ Hc. rewrite list_lookup_insert_eq in Hc; [|done]. injection Hc as <-. lia.
Qed.

(** A state of the invariant at fact [0] whose cursor there is reset
    is the initial state. *)
Lemma inv_at_start (db : Database) (q : Query) fs (A : list PatternAtom) (tr : list (nat * Var)) :
  Inv db (mkQS q fs A 0 tr) -> 0 < length fs -> mkQS q (<[0:=0]> fs) A 0 tr = QueryState_new q.
Proof.
  intros [Hslen Halen Hle Hord Htnd Hbiff Htvar Hsupp Hfresh Hcur] H0; simpl in *.
  unfold QueryState_new. f_equal.
  - apply list_eq. intros [|j].
    + rewrite list_lookup_insert_eq; [|done]. symmetry. apply lookup_replicate_2. lia.
    + rewrite list_lookup_insert_ne; [|lia].
      destruct (decide (S j < length (elems q))) as [Hj|Hj].
      * rewrite Hfresh; [|lia|done]. symmetry. apply lookup_replicate_2. done.
      * rewrite lookup_ge_None_2; [|lia]. symmetry. apply lookup_replicate_None. lia.
  - assert (tr = []) as ->.
    { destruct tr as [|[j v] tr]; [done|]. simpl in Hord. lia. }
    apply list_eq. intros v. destruct (A !! v) as [[|x]|] eqn:HAv.
    + symmetry. apply lookup_replicate_2. rewrite <- Halen. by apply lookup_lt_Some in HAv.
    + exfalso. assert (Hin : v ∈ map snd (@nil (nat * Var))) by (apply Hbiff; eauto).
      by apply not_elem_of_nil in Hin.
    + symmetry. apply lookup_replicate_None. rewrite <- Halen. by apply lookup_ge_None.
  - destruct tr as [|[j v] tr]; [done|]. simpl in Hord. lia.
Qed.

(** An iteration of the loop keeps the invariant; when it returns
    [None] the state is the initial one. *)
Lemma inv_step (db : Database) (st : QueryState) o :
  Inv db st -> db_wf db -> step db st = Ok o ->
  match o with
  | Continue st' => Inv db st' ∧ query st' = query st
  | ReturnNone st' => st' = QueryState_new (query st)
  end.
Proof.
  intros Hinv Hwf Hs. pose proof (step_cases _ _ _ Hs) as Hc.
  destruct st as [q fs A k tr]. cbn -[undo_last] in Hc |- *.
  destruct Hc as (C & pat & c & HC & Hpat & Hfc &
    [(i & f & A' & tr' & Hm & Hb & ->) | (Hm & [(-> & ->) | (Hk0 & st' & Hu & ->)])]).
  - split; [|done]. eapply inv_forward; eauto.
  - apply (inv_at_start db). { done. } by apply lookup_lt_Some in Hfc.
  - assert (Hk : k < length fs) by (by apply lookup_lt_Some in Hfc).
    pose proof (inv_reset _ _ _ _ _ _ Hinv Hk) as Hinv0.
    destruct k as [|k]; [done|].
    destruct (inv_undo db _ k Hinv0) as (st'' & Hu' & Hinv' & Hq & _); [done| |].
    + intros c' Hc'. simpl in Hc'. rewrite list_lookup_insert_eq in Hc'; [|done]. congruence.
    + rewrite Hu in Hu'. injection Hu' as <-. split; [done|]. by rewrite Hq.
Qed.

(** What the loop of [next] ends with, from a state of the invariant. *)
Lemma loop_inv (db : Database) (st : QueryState) r :
  db_wf db -> loop_rel db st r -> Inv db st ->
  (∀ st' A, r = Ok (st', Some A) -> Inv db st' ∧ query st' = query st ∧
     next_unsupported_fact st' = length (elems (query st)) ∧ emit (assignment st') = Ok A) ∧
  (∀ st', r = Ok (st', None) -> st' = QueryState_new (query st)).
Proof.
  intros Hwf Hl. induction Hl as [st Hn|st st' r Hn Hs Hl IH|st st' Hn Hs|st e Hn Hs]; intros Hinv.
  - split.
    + intros st' A Hr. destruct (emit (assignment st)) as [a|e] eqn:He; simpl in Hr; [|discriminate].
      injection Hr as <- <-. split_and!; [done|done| |done].
      pose proof (inv_nuf_le _ _ Hinv). pose proof (inv_support_len _ _ Hinv). lia.
    + intros st' Hr. destruct (emit (assignment st)); simpl in Hr; discriminate.
  - destruct (inv_step _ _ _ Hinv Hwf Hs) as [Hinv' Hq]. destruct (IH Hinv') as [IH1 IH2].
    rewrite Hq in IH1, IH2. done.
  - pose proof (inv_step _ _ _ Hinv Hwf Hs) as Hst. split; [done|]. by intros st'' [= <-].
  - done.
Qed.

(** The part of [next] before its loop keeps the invariant; from a
    state standing on a solution it moves the last cursor one step on. *)
Lemma prelude_inv (db : Database) (st st0 : QueryState) :
  Inv db st -> prelude st = Ok st0 ->
  Inv db st0 ∧ query st0 = query st ∧
  (next_unsupported_fact st = length (fact_support st) ->
   ∃ k c, next_unsupported_fact st = S k ∧ fact_support st !! k = Some c ∧
     next_unsupported_fact st0 = k ∧ fact_support st0 = <[k := S c]> (fact_support st)).
Proof.
  intros Hinv. unfold prelude. case_decide as Hn.
  - intros Hu. destruct (next_unsupported_fact st) as [|k] eqn:Hk.
    + apply undo_last_unfold in Hu as (k' & _ & _ & _ & Hk' & _). congruence.
    + destruct (inv_undo db st k Hinv Hk) as (st' & Hu' & Hinv' & Hq & Hnuf & c & Hc & Hfs).
      * intros c Hc. apply lookup_lt_Some in Hc. lia.
      * rewrite Hu in Hu'. injection Hu' as <-. split_and!; [done|done|]. intros _. by exists k, c.
  - case_decide as H0; [|discriminate]. intros [= <-]. split_and!; [done|done|]. done.
Qed.

(** Every state an evaluator goes through keeps the invariant, is on
    its own query, and is either at its start or on a solution. *)
Lemma reachable_inv (db : Database) (q : Query) (st : QueryState) :
  db_wf db -> reachable db q st ->
  Inv db st ∧ query st = q ∧ (next_unsupported_fact st = 0 ∨ next_unsupported_fact st = length (elems q)).
Proof.
  intros Hwf Hr. induction Hr as [|st st' o Hr IH Hn].
  - split_and!; [apply inv_new|done|by left].
  - destruct IH as (Hinv & Hq & _). unfold next_rel in Hn.
    destruct (prelude st) as [st0|e] eqn:Hp; [|discriminate].
    destruct (prelude_inv _ _ _ Hinv Hp) as (Hinv0 & Hq0 & _).
    destruct (loop_inv _ _ _ Hwf Hn Hinv0) as [H1 H2]. destruct o as [A|].
    + destruct (H1 st' A eq_refl) as (Hinv' & Hq' & Hnuf & _). rewrite Hq0, Hq in Hq', Hnuf.
      split_and!; [done|done|by right].
    + rewrite (H2 st' eq_refl), Hq0, Hq. split_and!; [apply inv_new|done|by left].
Qed.

(** A call of [next] that returns an assignment leaves a state of the
    invariant, on a solution, whose assignment is the one returned. *)
Lemma next_some_inv (db : Database) (q : Query) (st st' : QueryState) A :
  db_wf db -> reachable db q st -> next_rel db st (Ok (st', Some A)) ->
  Inv db st' ∧ query st' = q ∧ next_unsupported_fact st' = length (elems q) ∧
  emit (assignment st') = Ok A.
Proof.
  intros Hwf Hr Hn. destruct (reachable_inv _ _ _ Hwf Hr) as (Hinv & Hq & _).
  unfold next_rel in Hn. destruct (prelude st) as [st0|e] eqn:Hp; [|discriminate].
  destruct (prelude_inv _ _ _ Hinv Hp) as (Hinv0 & Hq0 & _).
  destruct (loop_inv _ _ _ Hwf Hn Hinv0) as [H1 _].
  destruct (H1 st' A eq_refl) as (Hinv' & Hq' & Hnuf & He). rewrite Hq0, Hq in Hq', Hnuf. done.
Qed.

(** A call of [next] that returns [None] leaves the initial state. *)
Lemma next_none_inv (db : Database) (q : Query) (st st' : QueryState) :
  db_wf db -> reachable db q st -> next_rel db st (Ok (st', None)) -> st' = QueryState_new q.
Proof.
  intros Hwf Hr Hn. destruct (reachable_inv _ _ _ Hwf Hr) as (Hinv & Hq & _).
  unfold next_rel in Hn. destruct (prelude st) as [st0|e] eqn:Hp; [|discriminate].
  destruct (prelude_inv _ _ _ Hinv Hp) as (Hinv0 & Hq0 & _).
  destruct (loop_inv _ _ _ Hwf Hn Hinv0) as [_ H2]. rewrite (H2 st' eq_refl), Hq0, Hq. done.
Qed.

(** ** The copy of the assignment *)

Lemma emit_lookup (A' : list PatternAtom) (A : Assignment) v x :
  emit A' = Ok A -> A' !! v = Some (PSym x) -> A !! v = Some x.
Proof.
  revert A v. induction A' as [|a A' IH]; intros A v He Hv; [done|].
  destruct a as [|s]; simpl in He; [discriminate|].
  destruct (emit A') as [rest|e] eqn:Hr; simpl in He; [|discriminate]. injection He as <-.
  destruct v as [|v]; simpl in Hv |- *; [congruence|]. by apply IH.
Qed.

Lemma emit_wildcard (A' : list PatternAtom) v :
  A' !! v = Some Wildcard -> emit A' = Panic MalformedQuery.
Proof.
  revert v. induction A' as [|a A' IH]; intros v Hv; [done|].
  destruct a as [|s]; simpl; [done|].
  destruct v as [|v]; simpl in Hv; [discriminate|]. by rewrite (IH v Hv).
Qed.

Lemma subst_lookup (A : Assignment) (C : LiftedFact) p a :
  C !! p = Some a ->
  subst A C !! p = Some (match a with ASym s => s | AVar v => default 0%N (A !! v) end).
Proof.
  revert p. induction C as [|b C IH]; intros p Hp; [done|].
  destruct p as [|p]; simpl in Hp; [by injection Hp as ->|]. exact (IH p Hp).
Qed.

(** At a solution, the cursors form a supporting tuple. *)
Lemma solution_supporting (db : Database) (q : Query) (st : QueryState) :
  Inv db st -> query st = q -> next_unsupported_fact st = length (elems q) ->
  supporting_tuple db q (fact_support st) (assignment st).
Proof.
  intros Hinv Hq Hnuf. split.
  - rewrite (inv_support_len _ _ Hinv), Hq. done.
  - intros j C HC. destruct (inv_supported _ _ Hinv j C) as (facts & i & f & Hb & Hi & Hf & Hs & _).
    + rewrite Hnuf. by apply lookup_lt_Some in HC.
    + by rewrite Hq.
    + by exists facts, i, f.
Qed.

(** ** Lexicographic progress of the cursors *)

Lemma lex_at_lt (S0 fs : list nat) p : length S0 = length fs -> lex_at S0 fs p -> lex_lt S0 fs.
Proof.
  revert fs p. induction S0 as [|x S0 IH]; intros [|y fs] p Hlen [Ht (a & b & Ha & Hb & Hab)];
    try by destruct p.
  destruct p as [|p]; simpl in *.
  - left. congruence.
  - right. injection Ht as -> Ht. split; [done|]. apply (IH fs p); [lia|]. split; [done|]. eauto.
Qed.

Lemma lex_step (db : Database) (st st' : QueryState) (S0 : list nat) :
  step db st = Ok (Continue st') ->
  (∃ p, p ≤ next_unsupported_fact st ∧ lex_at S0 (fact_support st) p) ->
  ∃ p, p ≤ next_unsupported_fact st' ∧ lex_at S0 (fact_support st') p.
Proof.
  intros Hs (p & Hp & Ht & a & b & Ha & Hb & Hab).
  pose proof (step_cases _ _ _ Hs) as Hc. destruct st as [q fs A k tr].
  cbn -[undo_last] in Hc, Hp, Hb, Ht.
  destruct Hc as (C & pat & c & HC & Hpat & Hfc &
    [(i & f & A' & tr' & Hm & Hb' & Heq) | (Hm & [(-> & Heq) | (Hk0 & st'' & Hu & Heq)])]);
    [ | discriminate | ].
  - injection Heq as ->. simpl. destruct (next_match_some _ _ _ _ _ Hm) as (facts & _ & Hci & _).
    exists p. split; [lia|]. split.
    + rewrite take_insert_ge; [done|lia].
    + exists a. destruct (decide (p = k)) as [->|Hpk].
      * exists i. rewrite list_lookup_insert_eq; [|by apply lookup_lt_Some in Hfc].
        rewrite Hfc in Hb. injection Hb as ->. split_and!; [done|done|lia].
      * exists b. rewrite list_lookup_insert_ne; [|lia]. done.
  - injection Heq as ->.
    apply undo_last_unfold in Hu as (k' & c' & A'' & popped & Hk' & Hc' & -> & _).
    simpl in Hk', Hc' |- *. subst k.
    rewrite list_lookup_insert_ne in Hc'; [|lia].
    destruct (decide (p ≤ k')) as [Hpk|Hpk].
    + exists p. split; [done|]. split.
      * rewrite take_insert_ge; [|lia]. rewrite take_insert_ge; [done|lia].
      * exists a. destruct (decide (p = k')) as [->|Hne].
        -- exists (S c'). rewrite list_lookup_insert_eq;
             [|rewrite length_insert; by apply lookup_lt_Some in Hc'].
           rewrite Hc' in Hb. injection Hb as ->. split_and!; [done|done|lia].
        -- exists b. rewrite list_lookup_insert_ne; [|lia]. rewrite list_lookup_insert_ne; [|lia]. done.
    + assert (p = S k') as -> by lia. exists k'. split; [done|]. split.
      * rewrite take_insert_ge; [|lia]. rewrite take_insert_ge; [|lia].
        apply (f_equal (take k')) in Ht. rewrite !take_take in Ht.
        replace (min k' (S k')) with k' in Ht by lia. done.
      * exists c', (S c'). split_and!.
        -- apply (f_equal (fun l => l !! k')) in Ht. rewrite !lookup_take_lt in Ht; [|lia|lia].
           congruence.
        -- rewrite list_lookup_insert_eq; [done|]. rewrite length_insert. by apply lookup_lt_Some in Hc'.
        -- lia.
Qed.

Lemma lex_loop (db : Database) (st : QueryState) r (S0 : list nat) :
  db_wf db -> loop_rel db st r -> Inv db st -> length S0 = length (fact_support st) ->
  (∃ p, p ≤ next_unsupported_fact st ∧ lex_at S0 (fact_support st) p) ->
  ∀ st' A, r = Ok (st', Some A) -> lex_lt S0 (fact_support st').
Proof.
  intros Hwf Hl. induction Hl as [st Hn|st st' r Hn Hs Hl IH|st st' Hn Hs|st e Hn Hs];
    intros Hinv Hlen Hlex st'' A Hr.
  - destruct (emit (assignment st)) as [a|e] eqn:He; simpl in Hr; [|discriminate].
    injection Hr as <- _. destruct Hlex as (p & _ & Hp). by apply (lex_at_lt _ _ p).
  - destruct (inv_step _ _ _ Hinv Hwf Hs) as [Hinv' Hq]. apply (IH Hinv') with (A := A); [|by apply (lex_step db st)|done].
    rewrite Hlen, (inv_support_len _ _ Hinv), (inv_support_len _ _ Hinv'), Hq. done.
  - discriminate.
  - discriminate.
Qed.

(** ** The loop does not panic on a well-formed query *)

Lemma vec_set_in {A} (l : list A) i x : i < length l -> vec_set l i x = Ok (<[i:=x]> l).
Proof. intros Hi. unfold vec_set. by rewrite decide_True. Qed.

Lemma bind_vars_exists k i (atoms : list Atom) (f : Fact) (A : list PatternAtom) (tr : list (nat * Var)) :
  (∀ v, AVar v ∈ atoms -> v < length A) -> i + length atoms ≤ length f ->
  ∃ A' tr', bind_vars k i atoms f A tr = Ok (A', tr').
Proof.
  revert i A tr. induction atoms as [|a atoms IH]; intros i A tr Hv Hl; simpl; [eauto|].
  simpl in Hl. destruct a as [v|s].
  - assert (Hva : v < length A) by (apply Hv, elem_of_cons; by left).
    destruct (lookup_lt_is_Some_2 A v Hva) as [a Ha]. rewrite (proj2 (vec_get_ok A v a) Ha). simpl.
    case_decide.
    + destruct (lookup_lt_is_Some_2 f i) as [s Hs]; [lia|].
      rewrite (proj2 (vec_get_ok f i s) Hs). simpl. rewrite vec_set_in; [|done]. simpl.
      apply IH; [|lia]. intros v' Hv'. rewrite length_insert. apply Hv, elem_of_cons. by right.
    + apply IH; [|lia]. intros v' Hv'. apply Hv, elem_of_cons. by right.
  - apply IH; [|lia]. intros v' Hv'. apply Hv, elem_of_cons. by right.
Qed.

Lemma step_exists (db : Database) (st : QueryState) :
  Inv db st -> db_wf db -> wf_query (query st) ->
  next_unsupported_fact st < length (fact_support st) -> ∃ o, step db st = Ok o.
Proof.
  intros Hinv Hwf Hq Hk. pose proof Hinv as [Hslen Halen Hle Hord Htnd Hbiff Htvar Hsupp Hfresh Hcur].
  destruct st as [q fs A k tr]. simpl in *. unfold step.
  destruct (lookup_lt_is_Some_2 (elems q) k) as [C HC]; [lia|].
  rewrite (proj2 (vec_get_ok _ _ _) HC). cbn -[undo_last].
  assert (HCq : C ∈ elems q) by (by eapply list_elem_of_lookup_2).
  destruct (build_pattern_exists A C) as [pat Hpat].
  { intros v Hv. rewrite Halen. by apply (num_vars_bound q C). }
  rewrite Hpat. cbn -[undo_last].
  destruct (lookup_lt_is_Some_2 fs k) as [c Hc]; [lia|].
  rewrite (proj2 (vec_get_ok _ _ _) Hc). cbn -[undo_last].
  destruct (build_pattern_ok _ _ _ Hpat) as (Hplen & _ & _).
  assert (Har : 1 ≤ length C ≤ 6) by (unfold wf_query in Hq; rewrite Forall_forall in Hq; by apply Hq).
  destruct (proj2 (bucket_arity db (length C)) Har) as [facts Hb].
  destruct (next_match_exists db pat c facts) as [m Hm]; [by rewrite Hplen|by apply (Hcur C)|].
  rewrite Hm. cbn -[undo_last].
  destruct m as [[i f]|].
  - destruct (next_match_some _ _ _ _ _ Hm) as (facts' & Hb' & _ & Hf & _).
    rewrite Hplen, Hb in Hb'. injection Hb' as <-.
    pose proof (db_wf_bucket _ _ _ _ _ Hwf Hb Hf) as Hflen.
    destruct (bind_vars_exists k 0 C f A tr) as (A' & tr' & Hbv).
    { intros v Hv. rewrite Halen. by apply (num_vars_bound q C). }
    { simpl. lia. }
    rewrite Hbv. cbn -[undo_last]. rewrite vec_set_in; [|lia]. cbn. eauto.
  - rewrite vec_set_in; [|lia]. cbn -[undo_last]. case_decide as Hk0; [eauto|].
    destruct k as [|k]; [done|].
    destruct (inv_undo db (mkQS q (<[S k:=0]> fs) A (S k) tr) k) as (st' & Hu & _).
    + apply inv_reset; [done|lia].
    + done.
    + intros c' Hc'. simpl in Hc'. rewrite list_lookup_insert_eq in Hc'; [|lia]. congruence.
    + assert (E : undo_last (mkQS q (<[S k:=0]> fs) A (S k) tr) ≫= (λ st'', Ok (Continue st''))
                  = Ok (Continue st')) by (by rewrite Hu).
      exact (ex_intro _ _ E).
Qed.

Lemma prelude_exists (db : Database) (st : QueryState) :
  Inv db st -> 0 < length (elems (query st)) ->
  (next_unsupported_fact st = 0 ∨ next_unsupported_fact st = length (elems (query st))) ->
  ∃ st0, prelude st = Ok st0.
Proof.
  intros Hinv Hn Hnuf. pose proof (inv_support_len _ _ Hinv) as Hl. unfold prelude. case_decide as H1.
  - destruct (next_unsupported_fact st) as [|k] eqn:Hk; [lia|].
    destruct (inv_undo db st k Hinv Hk) as (st' & Hu & _); [|eauto].
    intros c Hc. apply lookup_lt_Some in Hc. lia.
  - case_decide as H0; [eauto|]. lia.
Qed.

Lemma loop_unreferenced (db : Database) (st : QueryState) r v :
  db_wf db -> loop_rel db st r -> wf_query (query st) -> v < num_vars (query st) ->
  (∀ C, C ∈ elems (query st) -> AVar v ∉ C) -> Inv db st ->
  r = Panic MalformedQuery ∨ ∃ st', r = Ok (st', None).
Proof.
  intros Hwf Hl. induction Hl as [st Hn|st st' r Hn Hs Hl IH|st st' Hn Hs|st e Hn Hs];
    intros Hq Hv Hun Hinv.
  - left. assert (HAv : assignment st !! v = Some Wildcard).
    { pose proof (inv_assign_len _ _ Hinv).
      destruct (lookup_lt_is_Some_2 (assignment st) v) as [[|x] HAv]; [lia|done|].
      exfalso. assert (Ht : v ∈ map snd (trail st)) by (apply (inv_bound_iff _ _ Hinv); eauto).
      destruct (elem_of_map_snd_inv _ _ Ht) as [j Hj].
      destruct (inv_trail_var _ _ Hinv j v Hj) as (C & HC & HvC).
      apply (Hun C); [by eapply list_elem_of_lookup_2|done]. }
    by rewrite (emit_wildcard _ _ HAv).
  - destruct (inv_step _ _ _ Hinv Hwf Hs) as [Hinv' Hq']. rewrite <- Hq' in Hq, Hv, Hun. by apply IH.
  - right. eauto.
  - exfalso. destruct (step_exists _ _ Hinv Hwf Hq Hn) as [o Ho]. congruence.
Qed.

(** ** The frontend *)

Lemma intern_all_length (d : Frontend.Database) (f : list string) :
  length (snd (Frontend.intern_all d f)) = length f.
Proof.
  revert d. induction f as [|s f IH]; intros d; [done|]. simpl.
  destruct (Frontend.interned_id d s) as [d1 id].
  specialize (IH d1). destruct (Frontend.intern_all d1 f) as [d2 ids]. simpl in *. lia.
Qed.

(* ------------------------------------------------------------------ *)
(** ** Soundness, restart, order, unreferenced variables, frontend *)

(** C2 (amended). Every assignment [A] that [next] returns makes each
    conjunct [C] in which no variable occurs twice a stored tuple:
    substituting [A] into [C] gives a fact of the bucket of its arity.
    (A conjunct with a repeated variable is not covered: the code binds
    the variable at its first occurrence and never compares the other
    positions.) *)
Theorem next_sound_distinct_vars (db : Database) (q : Query) (st st' : QueryState)
    (A : Assignment) (C : LiftedFact) :
  db_wf db -> reachable db q st -> next_rel db st (Ok (st', Some A)) -> C ∈ elems q ->
  (∀ p p' v, C !! p = Some (AVar v) -> C !! p' = Some (AVar v) -> p = p') ->
  in_store db (subst A C).
Proof.
  intros Hwf Hr Hn HC Hlin.
  destruct (next_some_inv _ _ _ _ _ Hwf Hr Hn) as (Hinv & Hq & Hnuf & He).
  apply list_elem_of_lookup_1 in HC as [j Hj].
  destruct (inv_supported _ _ Hinv j C) as (facts & i & f & Hb & Hi & Hf & (Hlen & Hsym & Hfo) & _).
  { rewrite Hnuf. by apply lookup_lt_Some in Hj. }
  { by rewrite Hq. }
  assert (Hsub : subst A C = f).
  { apply list_eq. intros p. destruct (C !! p) as [[v|s]|] eqn:HCp.
    - rewrite (subst_lookup _ _ _ _ HCp).
      destruct (Hfo p v) as (x & Hfx & HAx).
      + split; [done|]. intros p' Hp' HCp'. specialize (Hlin p p' v HCp HCp'). lia.
      + rewrite Hfx, (emit_lookup _ _ _ _ He HAx). done.
    - rewrite (subst_lookup _ _ _ _ HCp). by rewrite (Hsym p s HCp).
    - apply lookup_ge_None in HCp.
      rewrite (lookup_ge_None_2 (subst A C) p) by (unfold subst; rewrite length_map; lia).
      rewrite (lookup_ge_None_2 f p) by lia. done. }
  exists facts. rewrite Hsub, Hlen. split; [done|]. by eapply list_elem_of_lookup_2.
Qed.

Lemma next_sound_distinct_vars_witness : in_store test_db (subst [1%N] [ASym 1; ASym 2; AVar 0]).
Proof.
  apply (next_sound_distinct_vars test_db q1 (QueryState_new q1)
           (next_state_fuel 1000 test_db (QueryState_new q1))).
  - repeat split; repeat constructor.
  - apply reach_new.
  - apply (next_fuel_sound 1000). vm_compute. reflexivity.
  - apply list_elem_of_singleton. reflexivity.
  - intros [|[|[|p]]] [|[|[|p']]] v H1 H2; simpl in *; try congruence; by rewrite lookup_nil in *.
Defined.

(** C3 (amended). When [next] returns [None], the evaluator is back in
    its initial state [QueryState::new q]: the following call starts the
    enumeration again. *)
Theorem next_none_restarts (db : Database) (q : Query) (st st' : QueryState) :
  db_wf db -> reachable db q st -> next_rel db st (Ok (st', None)) -> st' = QueryState_new q.
Proof. apply next_none_inv. Qed.

Lemma next_none_restarts_witness :
  next_state_fuel 1000 test_db (next_state_fuel 1000 test_db (QueryState_new q6)) = QueryState_new q6.
Proof.
  apply (next_none_restarts test_db q6 (next_state_fuel 1000 test_db (QueryState_new q6))).
  - repeat split; repeat constructor.
  - apply (reach_next _ _ (QueryState_new q6) _ (Some [2;2;2]%N)); [apply reach_new|].
    apply (next_fuel_sound 1000). vm_compute. reflexivity.
  - apply (next_fuel_sound 1000). vm_compute. reflexivity.
Defined.

(** C5. Two assignments returned one after the other come from cursor
    tuples (one supporting fact index per conjunct, conjuncts left to
    right, indices in insertion order in their bucket) and the second
    tuple is strictly after the first in the lexicographic order. *)
Theorem emissions_lex_increasing (db : Database) (q : Query) (st0 st1 st2 : QueryState)
    (A1 A2 : Assignment) :
  db_wf db -> reachable db q st0 ->
  next_rel db st0 (Ok (st1, Some A1)) -> next_rel db st1 (Ok (st2, Some A2)) ->
  supporting_tuple db q (fact_support st1) (assignment st1) ∧
  supporting_tuple db q (fact_support st2) (assignment st2) ∧
  lex_lt (fact_support st1) (fact_support st2).
Proof.
  intros Hwf Hr Hn1 Hn2.
  assert (Hr1 : reachable db q st1) by (by eapply reach_next).
  destruct (next_some_inv _ _ _ _ _ Hwf Hr Hn1) as (Hinv1 & Hq1 & Hnuf1 & _).
  destruct (next_some_inv _ _ _ _ _ Hwf Hr1 Hn2) as (Hinv2 & Hq2 & Hnuf2 & _).
  split_and!; [by apply solution_supporting|by apply solution_supporting|].
  unfold next_rel in Hn2. destruct (prelude st1) as [s|e] eqn:Hp; [|discriminate].
  destruct (prelude_inv _ _ _ Hinv1 Hp) as (Hinv0 & Hq0 & Hpre).
  destruct Hpre as (k & c & Hk & Hc & Hnuf0 & Hfs0).
  { rewrite (inv_support_len _ _ Hinv1), Hq1. done. }
  apply (lex_loop db s _ (fact_support st1) Hwf Hn2 Hinv0) with (A := A2); [| |done].
  - by rewrite Hfs0, length_insert.
  - exists k. split; [lia|]. rewrite Hfs0. split; [by rewrite take_insert_ge|].
    exists c, (S c). split_and!; [done| |lia].
    rewrite list_lookup_insert_eq; [done|]. by apply lookup_lt_Some in Hc.
Qed.

Lemma emissions_lex_increasing_witness :
  lex_lt (fact_support (next_state_fuel 1000 test_db (QueryState_new q1)))
         (fact_support (next_state_fuel 1000 test_db (next_state_fuel 1000 test_db (QueryState_new q1)))).
Proof.
  apply (emissions_lex_increasing test_db q1 (QueryState_new q1) _ _ [1%N] [2%N]).
  - repeat split; repeat constructor.
  - apply reach_new.
  - apply (next_fuel_sound 1000). vm_compute. reflexivity.
  - apply (next_fuel_sound 1000). vm_compute. reflexivity.
Defined.

(** C8. For a query whose conjuncts all have a supported arity, with a
    variable id [v] below [num_vars q] that no conjunct mentions, the
    slot of [v] is still [Wildcard] whenever every conjunct is
    supported, so [next] never returns an assignment: it panics with
    the [Malformed query] message, or returns [None]. *)
Theorem unreferenced_var_malformed (db : Database) (q : Query) (st : QueryState) r v :
  db_wf db -> wf_query q -> reachable db q st -> v < num_vars q ->
  (∀ C, C ∈ elems q -> AVar v ∉ C) -> next_rel db st r ->
  r = Panic MalformedQuery ∨ ∃ st', r = Ok (st', None).
Proof.
  intros Hwf Hq Hr Hv Hun Hn. destruct (reachable_inv _ _ _ Hwf Hr) as (Hinv & Hqs & Hnuf).
  assert (Hn0 : 0 < length (elems q)).
  { destruct (elems q) as [|C Cs] eqn:He; simpl; [|lia].
    unfold num_vars, query_vars in Hv. rewrite He in Hv. simpl in Hv. lia. }
  destruct (prelude_exists db st) as [st0 Hp]; [done|by rewrite Hqs|by rewrite Hqs|].
  unfold next_rel in Hn. rewrite Hp in Hn. destruct (prelude_inv _ _ _ Hinv Hp) as (Hinv0 & Hq0 & _).
  apply (loop_unreferenced db st0 r v Hwf Hn); rewrite ?Hq0, ?Hqs; done.
Qed.

Lemma unreferenced_var_malformed_witness :
  Panic MalformedQuery = Panic (A := QueryState * option Assignment) MalformedQuery ∨
  ∃ st', Panic MalformedQuery = Ok (A := QueryState * option Assignment) (st', None).
Proof.
  apply (unreferenced_var_malformed test_db qgap (QueryState_new qgap) _ 0).
  - repeat split; repeat constructor.
  - repeat constructor; simpl; lia.
  - apply reach_new.
  - vm_compute. lia.
  - intros C HC. apply list_elem_of_singleton in HC as ->.
    rewrite !elem_of_cons. intros [H|[H|[H|H]]]; [discriminate..|by apply not_elem_of_nil in H].
  - apply (next_fuel_sound 1000). vm_compute. reflexivity.
Defined.

(** The frontend's [add_fact] succeeds exactly when the core store
    takes a fact of that many symbols. *)
Lemma frontend_add_fact_ok_iff (d : Frontend.Database) (f : list string) :
  is_ok (Frontend.add_fact d f) = true <-> length f = 3.
Proof.
  unfold Frontend.add_fact.
  pose proof (intern_all_length d f) as Hl.
  destruct (Frontend.intern_all d f) as [d' syms]. simpl in Hl.
  destruct (add_fact (Frontend.db d') syms) as [core|e] eqn:Ha; simpl.
  - split; [intros _|done]. apply add_fact_ok_iff in Ha as [H3 _]. lia.
  - split; [done|]. intros H3. rewrite <- Hl in H3.
    epose proof (proj2 (add_fact_ok_iff _ _ _) (conj H3 eq_refl)) as Hok.
    rewrite Ha in Hok. discriminate.
Qed.

(** C9 (amended). The frontend's [add_fact] does not look at the
    characters of the strings of a fact: two facts with as many strings
    are accepted or refused alike, so a string starting with [?] is
    stored like any other. [Atom::from] classifies a string as [Var]
    exactly when it starts with [?]. *)
Theorem frontend_add_fact_ignores_question_mark :
  (∀ (d : Frontend.Database) (f1 f2 : list string),
     length f1 = length f2 ->
     is_ok (Frontend.add_fact d f1) = is_ok (Frontend.add_fact d f2)) ∧
  (∀ s : string, Frontend.atom_from s = Frontend.Var s <-> String.prefix "?" s = true).
Proof.
  split.
  - intros d f1 f2 Hl.
    pose proof (frontend_add_fact_ok_iff d f1) as E1. pose proof (frontend_add_fact_ok_iff d f2) as E2.
    rewrite Hl in E1.
    destruct (is_ok (Frontend.add_fact d f1)), (is_ok (Frontend.add_fact d f2)); naive_solver.
  - intros s. unfold Frontend.atom_from. destruct (String.prefix "?" s); split; congruence.
Qed.

(** ** Instances of the theorems with hypotheses *)

Lemma next_match_first_match_witness :
  ∃ r, next_match test_db [PSym 1; PSym 2; Wildcard] 5 = Ok r.
Proof.
  destruct (next_match_first_match test_db [PSym 1; PSym 2; Wildcard] 5 test_facts) as [(r & Hr & _) _].
  - reflexivity.
  - vm_compute. lia.
  - exists r. exact Hr.
Defined.

Lemma trail_correct_witness : assignment (mkQS q1 [1] [Wildcard] 0 []) !! 0 = Some Wildcard.
Proof.
  apply (proj1 (proj2 (proj1 trail_correct (mkQS q1 [0] [PSym 1] 1 [(0, 0)]) (mkQS q1 [1] [Wildcard] 0 []) 0
                         eq_refl ltac:(simpl; lia) ltac:(repeat constructor; set_solver)
                         ltac:(vm_compute; reflexivity)))).
  apply list_elem_of_singleton. reflexivity.
Defined.

Lemma frontend_add_fact_ignores_question_mark_witness :
  is_ok (Frontend.add_fact Frontend.new ["?x"; "on"; "table"]%string) =
  is_ok (Frontend.add_fact Frontend.new ["box"; "on"; "table"]%string).
Proof.
  apply (proj1 frontend_add_fact_ignores_question_mark). reflexivity.
Defined.

(* ------------------------------------------------------------------ *)
(** ** Further properties: stores, patterns, variables *)

Lemma add_facts_ok_iff (db db' : Database) (fs : list (list Sym)) :
  add_facts db fs = Ok db' <->
  Forall (fun f => length f = 3) fs ∧
  db' = mkDatabase (db1 db) (db2 db) (db3 db ++ fs) (db4 db) (db5 db) (db6 db).
Proof.
  revert db. induction fs as [|f fs IH]; intros db; simpl.
  - rewrite app_nil_r. destruct db; simpl. split.
    + intros [= <-]. split; [constructor|done].
    + by intros [_ ->].
  - destruct (add_fact db f) as [d1|e] eqn:Ha; simpl.
    + apply add_fact_ok_iff in Ha as [Hl ->]. rewrite IH. simpl. rewrite <- app_assoc. simpl.
      split.
      * intros [H ->]. split; [by constructor|done].
      * intros [H ->]. split; [by inversion H|done].
    + split; [discriminate|]. intros [H _]. inversion H as [|? ? Hl _]; subst.
      rewrite (proj2 (add_fact_ok_iff db _ f) (conj Hl eq_refl)) in Ha. discriminate.
Qed.

Lemma db_wf_new : db_wf Database_new.
Proof. repeat split; constructor. Qed.

Lemma add_facts_wf (db : Database) (fs : list (list Sym)) :
  add_facts Database_new fs = Ok db -> db_wf db.
Proof.
  intros H. apply add_facts_ok_iff in H as [Hfs ->]. simpl. repeat split; try constructor. done.
Qed.

Lemma matches_iff (pat : Pattern) (f : Fact) :
  matches pat f = true <->
  ∀ p a s, pat !! p = Some a -> f !! p = Some s -> atom_matches a s = true.
Proof.
  revert f. induction pat as [|a pat IH]; intros [|s f]; simpl.
  - split; [done|]. intros _. done.
  - split; [done|]. intros _. done.
  - split; [intros _ p a' s' _ Hs; by rewrite lookup_nil in Hs|done].
  - rewrite andb_true_iff, IH. split.
    + intros [Ha Hr] [|p] a' s'; simpl; [by intros [= <-] [= <-]|apply Hr].
    + intros H. split; [by apply (H 0)|]. intros p. apply (H (S p)).
Qed.

Lemma unique_from_iff (x : nat) l : ∀ seen, x ∈ unique_from seen l <-> x ∈ l ∧ x ∉ seen.
Proof.
  induction l as [|y l IH]; intros seen; simpl.
  - split; [intros H; by apply not_elem_of_nil in H|intros [H _]; by apply not_elem_of_nil in H].
  - case_decide as Hy.
    + rewrite IH, elem_of_cons. split; [tauto|]. intros [[->|Hl] Hs]; [done|tauto].
    + rewrite elem_of_cons, IH, !elem_of_cons. split.
      * intros [->|[Hl Hs]]; [tauto|]. split; [tauto|]. intros Hx. apply Hs. by right.
      * intros [[->|Hl] Hs]; [by left|]. destruct (decide (x = y)) as [->|Hne]; [by left|].
        right. split; [done|]. intros [->|Hx]; done.
Qed.

Lemma unique_from_nodup l : ∀ seen, NoDup (unique_from seen l).
Proof.
  induction l as [|y l IH]; intros seen; simpl; [constructor|].
  case_decide; [apply IH|]. constructor; [|apply IH].
  rewrite unique_from_iff. intros [_ Hs]. apply Hs. by left.
Qed.

Lemma elem_of_query_vars (q : Query) v :
  v ∈ query_vars q <-> ∃ C, C ∈ elems q ∧ AVar v ∈ C.
Proof.
  unfold query_vars, unique. rewrite unique_from_iff, list_elem_of_join. split.
  - intros [(vs & Hv & Hvs) _]. apply list_elem_of_In, in_map_iff in Hvs as (C & <- & HC).
    unfold lifted_vars, unique in Hv. apply unique_from_iff in Hv as [Hv _].
    apply list_elem_of_omap in Hv as (a & Ha & Hav). destruct a as [w|s]; [|discriminate].
    injection Hav as ->. exists C. split; [by apply list_elem_of_In|done].
  - intros (C & HC & Hv). split; [|apply not_elem_of_nil]. exists (lifted_vars C). split.
    + unfold lifted_vars. apply elem_of_unique. apply list_elem_of_omap. by exists (AVar v).
    + apply list_elem_of_In. apply in_map. by apply list_elem_of_In.
Qed.

Lemma foldr_max_in (v : nat) vs : foldr Nat.max v vs ∈ v :: vs.
Proof.
  induction vs as [|w vs IH]; simpl; [by left|].
  destruct (Nat.max_spec w (foldr Nat.max v vs)) as [[_ ->]|[_ ->]].
  - apply elem_of_cons in IH as [->|H]; [by left|right; by right].
  - right. by left.
Qed.

(** ** The copy of the assignment, again *)

Lemma emit_length (A' : list PatternAtom) (A : Assignment) :
  emit A' = Ok A -> length A = length A'.
Proof.
  revert A. induction A' as [|a A' IH]; intros A He; simpl in He; [by injection He as <-|].
  destruct a as [|s]; [discriminate|].
  destruct (emit A') as [rest|e] eqn:Hr; simpl in He; [|discriminate]. injection He as <-.
  simpl. by rewrite (IH rest eq_refl).
Qed.

Lemma emit_ok (A' : list PatternAtom) :
  (∀ v, v < length A' -> ∃ x, A' !! v = Some (PSym x)) -> ∃ A, emit A' = Ok A.
Proof.
  induction A' as [|a A' IH]; intros H; simpl; [by eexists|].
  destruct (H 0) as [x Hx]; [simpl; lia|]. simpl in Hx. injection Hx as ->.
  destruct IH as [rest Hr]; [intros v Hv; apply (H (S v)); simpl; lia|]. rewrite Hr. simpl. by eexists.
Qed.


(** ** The loop on a query whose variable ids are dense *)

Lemma loop_dense_ok (db : Database) (st : QueryState) r :
  db_wf db -> loop_rel db st r -> wf_query (query st) -> dense_vars (query st) -> Inv db st ->
  ∃ st' o, r = Ok (st', o).
Proof.
  intros Hwf Hl. induction Hl as [st Hn|st st' r Hn Hs Hl IH|st st' Hn Hs|st e Hn Hs];
    intros Hq Hd Hinv.
  - assert (Hnuf : next_unsupported_fact st = length (elems (query st))).
    { pose proof (inv_nuf_le _ _ Hinv). pose proof (inv_support_len _ _ Hinv). lia. }
    destruct (emit_ok (assignment st)) as [A HA].
    { intros v Hv. rewrite (inv_assign_len _ _ Hinv) in Hv.
      destruct (Hd v Hv) as (C & HC & HvC). apply list_elem_of_lookup_1 in HC as [j HC].
      destruct (inv_supported _ _ Hinv j C) as (_ & _ & _ & _ & _ & _ & _ & Htr).
      { rewrite Hnuf. by apply lookup_lt_Some in HC. }
      { done. }
      destruct (Htr v HvC) as (j' & _ & Hin).
      apply (inv_bound_iff _ _ Hinv). by eapply elem_of_map_snd. }
    rewrite HA. simpl. eauto.
  - destruct (inv_step _ _ _ Hinv Hwf Hs) as [Hinv' Hq']. rewrite <- Hq' in Hq, Hd. by apply IH.
  - eauto.
  - exfalso. destruct (step_exists _ _ Hinv Hwf Hq Hn) as [o Ho]. congruence.
Qed.

Lemma next_dense_ok (db : Database) (q : Query) (st : QueryState) r :
  db_wf db -> wf_query q -> elems q ≠ [] -> dense_vars q -> reachable db q st -> next_rel db st r ->
  ∃ st' o, r = Ok (st', o).
Proof.
  intros Hwf Hq Hne Hd Hr Hn. destruct (reachable_inv _ _ _ Hwf Hr) as (Hinv & Hqs & Hnuf).
  assert (Hn0 : 0 < length (elems q)) by (destruct (elems q); [done|simpl; lia]).
  destruct (prelude_exists db st) as [st0 Hp]; [done|by rewrite Hqs|by rewrite Hqs|].
  unfold next_rel in Hn. rewrite Hp in Hn. destruct (prelude_inv _ _ _ Hinv Hp) as (Hinv0 & Hq0 & _).
  apply (loop_dense_ok db st0 r Hwf Hn); rewrite ?Hq0, ?Hqs; done.
Qed.

(** ** The first call of [next] on a conjunct with no candidate fact *)

Lemma step_new_empty_bucket (db : Database) (q : Query) C :
  elems q !! 0 = Some C -> bucket db (length C) = Some [] ->
  step db (QueryState_new q) = Ok (ReturnNone (QueryState_new q)).
Proof.
  intros HC Hb. unfold QueryState_new at 1. unfold step.
  rewrite (proj2 (vec_get_ok _ _ _) HC). cbn -[undo_last].
  destruct (build_pattern_exists (replicate (num_vars q) Wildcard) C) as [pat Hpat].
  { intros v Hv. rewrite length_replicate. apply (num_vars_bound q C); [|done].
    by eapply list_elem_of_lookup_2. }
  rewrite Hpat. cbn -[undo_last].
  assert (Hn : 0 < length (elems q)) by (by apply lookup_lt_Some in HC).
  assert (H0 : replicate (length (elems q)) 0 !! 0 = Some 0) by (apply lookup_replicate_2; lia).
  rewrite (proj2 (vec_get_ok _ _ _) H0). cbn -[undo_last].
  destruct (build_pattern_ok _ _ _ Hpat) as (Hplen & _ & _).
  unfold next_match. rewrite Hplen, Hb. cbn -[undo_last].
  rewrite vec_set_in; [|by rewrite length_replicate]. cbn -[undo_last].
  rewrite list_insert_id; [done|]. done.
Qed.

(* ------------------------------------------------------------------ *)
(** ** Further properties of the store, the patterns and the evaluator *)

(** X1. Adding a list of facts one after the other succeeds exactly when
    every fact has three symbols; they are then appended, in order, to
    the arity-3 bucket, and the other buckets are left as they were. *)
Theorem add_facts_append (db db' : Database) (fs : list (list Sym)) :
  add_facts db fs = Ok db' <->
  Forall (fun f => length f = 3) fs ∧
  db' = mkDatabase (db1 db) (db2 db) (db3 db ++ fs) (db4 db) (db5 db) (db6 db).
Proof. apply add_facts_ok_iff. Qed.

(** X2. In a store built from the empty one with [add_fact], a fact that
    [next_match] returns has exactly as many symbols as the pattern (so
    the binding loop can read [fact[i]] at every position of the
    conjunct). *)
Theorem next_match_fact_arity (fs : list (list Sym)) (db : Database) (pat : Pattern) c i (f : Fact) :
  add_facts Database_new fs = Ok db -> next_match db pat c = Ok (Some (i, f)) ->
  length f = length pat.
Proof.
  intros Hdb Hm. destruct (next_match_some _ _ _ _ _ Hm) as (facts & Hb & _ & Hf & _).
  exact (db_wf_bucket _ _ _ _ _ (add_facts_wf _ _ Hdb) Hb Hf).
Qed.

Lemma next_match_fact_arity_witness : length [1; 2; 1]%N = length [PSym 1; PSym 2; Wildcard].
Proof.
  apply (next_match_fact_arity test_facts test_db [PSym 1; PSym 2; Wildcard] 0 0); reflexivity.
Defined.

(** X3. A pattern matches a fact exactly when each pattern atom matches
    the symbol at the same position, over the positions both have: the
    symbols of the fact past the end of the pattern, and the pattern
    atoms past the end of the fact, are not looked at. *)
Theorem matches_pointwise (pat : Pattern) (f : Fact) :
  matches pat f = true <->
  ∀ p a s, pat !! p = Some a -> f !! p = Some s -> atom_matches a s = true.
Proof. apply matches_iff. Qed.

(** X4. [Query::vars] lists each variable id once, and lists exactly the
    ids that occur in some conjunct. *)
Theorem query_vars_spec (q : Query) :
  NoDup (query_vars q) ∧ ∀ v, v ∈ query_vars q <-> ∃ C, C ∈ elems q ∧ AVar v ∈ C.
Proof. split; [apply unique_from_nodup|apply elem_of_query_vars]. Qed.

(** X5. [num_vars] is one more than the largest variable id of the
    query: every id is below it, and it is 0 or the id [num_vars - 1]
    occurs in some conjunct. *)
Theorem num_vars_max_plus_one (q : Query) :
  (∀ C v, C ∈ elems q -> AVar v ∈ C -> v < num_vars q) ∧
  (num_vars q = 0 ∨ ∃ C, C ∈ elems q ∧ AVar (num_vars q - 1) ∈ C).
Proof.
  split; [intros C v; apply num_vars_bound|].
  destruct (num_vars q) as [|m] eqn:Hn; [by left|right].
  unfold num_vars in Hn. apply elem_of_query_vars.
  destruct (query_vars q) as [|v vs]; [discriminate|]. injection Hn as <-.
  replace (S (foldr Nat.max v vs) - 1) with (foldr Nat.max v vs) by lia. apply foldr_max_in.
Qed.

(** X6. An assignment returned by [next] has one value per variable id:
    its length is [num_vars q]. *)
Theorem next_emits_num_vars (db : Database) (q : Query) (st st' : QueryState) (A : Assignment) :
  db_wf db -> reachable db q st -> next_rel db st (Ok (st', Some A)) -> length A = num_vars q.
Proof.
  intros Hwf Hr Hn. destruct (next_some_inv _ _ _ _ _ Hwf Hr Hn) as (Hinv & Hq & _ & He).
  rewrite (emit_length _ _ He), (inv_assign_len _ _ Hinv), Hq. done.
Qed.

Lemma next_emits_num_vars_witness : length [1%N] = num_vars q1.
Proof.
  apply (next_emits_num_vars test_db q1 (QueryState_new q1)
           (next_state_fuel 1000 test_db (QueryState_new q1))).
  - repeat split; repeat constructor.
  - apply reach_new.
  - apply (next_fuel_sound 1000). vm_compute. reflexivity.
Defined.

(** X7. When the bucket of the first conjunct's arity holds no fact, the
    first call of [next] returns [None] and leaves the evaluator in its
    initial state; in particular every query with a first conjunct has
    no answer on the empty store. *)
Theorem next_new_empty_bucket (db : Database) (q : Query) (C : LiftedFact) :
  elems q !! 0 = Some C -> bucket db (length C) = Some [] ->
  next_rel db (QueryState_new q) (Ok (QueryState_new q, None)).
Proof.
  intros HC Hb. assert (Hn : 0 < length (elems q)) by (by apply lookup_lt_Some in HC).
  unfold next_rel, prelude. cbn [next_unsupported_fact fact_support QueryState_new].
  rewrite length_replicate.
  destruct (decide (0 = length (elems q))) as [E|_]; [lia|].
  apply (loop_return db (QueryState_new q)).
  - simpl. rewrite length_replicate. done.
  - by apply (step_new_empty_bucket db q C).
Qed.

Lemma next_new_empty_bucket_witness :
  next_rel Database_new (QueryState_new q1) (Ok (QueryState_new q1, None)).
Proof. apply (next_new_empty_bucket Database_new q1 [ASym 1; ASym 2; AVar 0]); reflexivity. Defined.

(** X8. On a store built by [add_fact], a query with at least one
    conjunct, all of a supported arity (1 to 6), whose variable ids
    leave no gap below [num_vars], never makes [next] panic: whenever a
    call of [next] returns, it returns a state and an [Option]. *)
Theorem next_dense_no_panic (db : Database) (q : Query) (st : QueryState) r :
  db_wf db -> wf_query q -> elems q ≠ [] -> dense_vars q -> reachable db q st -> next_rel db st r ->
  ∃ st' o, r = Ok (st', o).
Proof. apply next_dense_ok. Qed.

Lemma next_dense_no_panic_witness :
  ∃ st' o, Ok (A := QueryState * option Assignment)
             (next_state_fuel 1000 test_db (QueryState_new q6), Some [2; 2; 2]%N) = Ok (st', o).
Proof.
  apply (next_dense_no_panic test_db q6 (QueryState_new q6)).
  - repeat split; repeat constructor.
  - repeat constructor; simpl; lia.
  - discriminate.
  - intros v Hv. vm_compute in Hv. destruct v as [|[|[|v]]].
    + exists [AVar 2; AVar 0; ASym 3]. split; repeat constructor.
    + exists [AVar 2; AVar 1; ASym 7]. split; repeat constructor.
    + exists [AVar 2; AVar 1; ASym 7]. split; repeat constructor.
    + lia.
  - apply reach_new.
  - apply (next_fuel_sound 1000). vm_compute. reflexivity.
Defined.

(** ** The evaluator of [query.rs] against the one of [core.rs] *)

Lemma step_query (db : Database) (st st' : QueryState) :
  step db st = Ok (Continue st') -> query st' = query st.
Proof.
  intros Hs. pose proof (step_cases _ _ _ Hs) as Hc. destruct st as [q fs A k tr].
  cbn -[undo_last] in Hc |- *.
  destruct Hc as (C & pat & c & HC & Hpat & Hfc &
    [(i & f & A' & tr' & Hm & Hb & Heq) | (Hm & [(-> & Heq) | (Hk0 & st'' & Hu & Heq)])]).
  - by injection Heq as ->.
  - discriminate.
  - injection Heq as Heq. subst st''. apply undo_last_unfold in Hu as (k1 & c1 & A1 & p1 & _ & _ & Hst & _).
    by rewrite Hst.
Qed.

Lemma rs_step_eq (db : QueryRs.Database) (st : QueryState) :
  Forall (fun C => length C = 3) (elems (query st)) ->
  QueryRs.step db st = step (core_of_rs db) st.
Proof.
  intros H3. destruct st as [q fs A k tr]. simpl in H3. unfold QueryRs.step, step.
  destruct (vec_get (elems q) k) as [C|e] eqn:HC; [|done]. cbn -[undo_last QueryRs.next_match next_match].
  apply vec_get_ok in HC.
  assert (HC3 : length C = 3) by (rewrite Forall_lookup in H3; by apply (H3 k)).
  destruct (build_pattern A C) as [pat|e] eqn:Hpat; [|done]. cbn -[undo_last QueryRs.next_match next_match].
  destruct (vec_get fs k) as [c|e]; [|done]. cbn -[undo_last QueryRs.next_match next_match].
  assert (Hm : QueryRs.next_match db pat c = next_match (core_of_rs db) pat c).
  { destruct (build_pattern_ok _ _ _ Hpat) as (Hplen & _). unfold next_match.
    rewrite Hplen, HC3. done. }
  by rewrite Hm.
Qed.

Lemma rs_loop_eq (db : QueryRs.Database) (st : QueryState) r :
  Forall (fun C => length C = 3) (elems (query st)) ->
  QueryRs.loop_rel db st r <-> loop_rel (core_of_rs db) st r.
Proof.
  intros H3. split.
  - intros Hl. revert H3. induction Hl as [st Hn|st st' r Hn Hs Hl IH|st st' Hn Hs|st e Hn Hs]; intros H3.
    + by apply loop_exit.
    + rewrite rs_step_eq in Hs; [|done]. apply (loop_continue _ st st'); [done|done|].
      apply IH. by rewrite (step_query _ _ _ Hs).
    + rewrite rs_step_eq in Hs; [|done]. by apply loop_return.
    + rewrite rs_step_eq in Hs; [|done]. by apply loop_panic.
  - intros Hl. revert H3. induction Hl as [st Hn|st st' r Hn Hs Hl IH|st st' Hn Hs|st e Hn Hs]; intros H3.
    + by apply QueryRs.loop_exit.
    + apply (QueryRs.loop_continue _ st st'); [done|by rewrite rs_step_eq|].
      apply IH. by rewrite (step_query _ _ _ Hs).
    + apply QueryRs.loop_return; [done|by rewrite rs_step_eq].
    + apply QueryRs.loop_panic; [done|by rewrite rs_step_eq].
Qed.

Lemma prelude_query (st st0 : QueryState) : prelude st = Ok st0 -> query st0 = query st.
Proof.
  unfold prelude. case_decide.
  - intros Hu. apply undo_last_unfold in Hu as (k1 & c1 & A1 & p1 & _ & _ & Hst & _). by rewrite Hst.
  - case_decide; [by intros [= <-]|discriminate].
Qed.

(** X9. The evaluator [State] of [query.rs], on a [database::Database],
    behaves as [QueryState] of [core.rs] on the store holding the same
    facts in its arity-3 bucket: for a query of three-atom conjuncts, a
    call of [next] returns the same state and result, or panics the same
    way. *)
Theorem query_rs_next_agrees (db : QueryRs.Database) (st : QueryState) r :
  Forall (fun C => length C = 3) (elems (query st)) ->
  QueryRs.next_rel db st r <-> next_rel (core_of_rs db) st r.
Proof.
  intros H3. unfold QueryRs.next_rel, next_rel.
  destruct (prelude st) as [st0|e] eqn:Hp; [|done].
  apply rs_loop_eq. by rewrite (prelude_query _ _ Hp).
Qed.

Lemma query_rs_next_agrees_witness :
  QueryRs.next_rel (QueryRs.mkDB test_facts) (QueryState_new q1)
    (Ok (next_state_fuel 1000 test_db (QueryState_new q1), Some [1%N])).
Proof.
  apply (query_rs_next_agrees (QueryRs.mkDB test_facts) (QueryState_new q1)).
  - repeat constructor.
  - apply (next_fuel_sound 1000). vm_compute. reflexivity.
Defined.

(** ** The frontend's string table *)

Lemma interned_wf_new : interned_wf Frontend.new.
Proof. intros s i. simpl. rewrite lookup_empty, lookup_nil. done. Qed.

Lemma interned_id_spec (d d' : Frontend.Database) s id :
  interned_wf d -> Frontend.interned_id d s = (d', id) ->
  interned_wf d' ∧ Frontend.ids d' !! s = Some id ∧ Frontend.interned d' !! N.to_nat id = Some s ∧
  (∀ t i, Frontend.ids d !! t = Some i -> Frontend.ids d' !! t = Some i) ∧
  (∀ i t, Frontend.interned d !! i = Some t -> Frontend.interned d' !! i = Some t) ∧
  Frontend.db d' = Frontend.db d.
Proof.
  intros Hwf. unfold Frontend.interned_id. destruct (Frontend.ids d !! s) as [i|] eqn:Hs.
  - intros [= <- <-]. split_and!; auto. by apply Hwf.
  - intros [= <- <-]. simpl. split_and!.
    + intros t i. simpl. rewrite lookup_insert_Some, lookup_snoc_Some. split.
      * intros [[<- <-]|[Hts Ht]].
        -- right. rewrite Nat2N.id. done.
        -- left. apply Hwf in Ht. split; [by apply lookup_lt_Some in Ht|done].
      * intros [[Hlt Ht]|[Hi <-]].
        -- right. apply Hwf in Ht. split; [|done]. intros <-. congruence.
        -- left. split; [done|]. rewrite <- Hi. by rewrite N2Nat.id.
    + by rewrite lookup_insert_eq.
    + rewrite Nat2N.id. apply lookup_snoc_Some. by right.
    + intros t i Ht. rewrite lookup_insert_ne; [done|]. intros ->. congruence.
    + intros i t Ht. apply lookup_snoc_Some. left. split; [by apply lookup_lt_Some in Ht|done].
    + done.
Qed.

Lemma intern_all_spec (d d' : Frontend.Database) (f : list string) (syms : list N) :
  interned_wf d -> Frontend.intern_all d f = (d', syms) ->
  interned_wf d' ∧ map (fun i => Frontend.interned d' !! N.to_nat i) syms = map Some f ∧
  (∀ t i, Frontend.ids d !! t = Some i -> Frontend.ids d' !! t = Some i) ∧
  (∀ i t, Frontend.interned d !! i = Some t -> Frontend.interned d' !! i = Some t) ∧
  Frontend.db d' = Frontend.db d.
Proof.
  revert d syms. induction f as [|s f IH]; intros d syms Hwf; simpl.
  - intros [= <- <-]. split_and!; auto.
  - destruct (Frontend.interned_id d s) as [d1 id] eqn:Hi.
    destruct (Frontend.intern_all d1 f) as [d2 ids'] eqn:Ha. intros [= <- <-].
    destruct (interned_id_spec _ _ _ _ Hwf Hi) as (Hwf1 & Hs1 & Hid1 & Hids1 & Hint1 & Hdb1).
    destruct (IH d1 ids' Hwf1 Ha) as (Hwf2 & Hmap & Hids2 & Hint2 & Hdb2).
    simpl. rewrite Hmap. split_and!; auto.
    + by rewrite (Hint2 _ _ Hid1).
    + by rewrite Hdb2.
Qed.

(** ** Compiling a frontend query *)















(** ** Further properties of the frontend *)









(** ** Where the values of an assignment come from *)

Lemma emit_lookup_rev (A' : list PatternAtom) (A : Assignment) v x :
  emit A' = Ok A -> A !! v = Some x -> A' !! v = Some (PSym x).
Proof.
  revert A v. induction A' as [|a A' IH]; intros A v He Hv; simpl in He.
  - injection He as <-. by rewrite lookup_nil in Hv.
  - destruct a as [|s]; [discriminate|].
    destruct (emit A') as [rest|e] eqn:Hr; simpl in He; [|discriminate]. injection He as <-.
    destruct v as [|v]; simpl in Hv |- *; [congruence|]. by apply (IH rest).
Qed.

Lemma first_occ_exists (C : LiftedFact) v : AVar v ∈ C -> ∃ p, first_occ C p v.
Proof.
  induction C as [|a C IH]; intros Hv; [by apply not_elem_of_nil in Hv|].
  assert (Ha : a = AVar v ∨ a ≠ AVar v).
  { destruct a as [w|s]; [|right; discriminate]. destruct (decide (w = v)) as [->|Hw]; [by left|].
    right. congruence. }
  destruct Ha as [->|Ha].
  - exists 0. split; [done|]. intros p' Hp'. lia.
  - apply elem_of_cons in Hv as [Hv|Hv]; [congruence|].
    destruct (IH Hv) as (p & Hp & Hmin). exists (S p). split; [done|].
    intros [|p'] Hp'; simpl; [congruence|]. apply Hmin. lia.
Qed.

Lemma next_value_source (db : Database) (q : Query) (st st' : QueryState) (A : Assignment) v x :
  db_wf db -> reachable db q st -> next_rel db st (Ok (st', Some A)) -> A !! v = Some x ->
  ∃ C p f, C ∈ elems q ∧ first_occ C p v ∧ in_store db f ∧ f !! p = Some x.
Proof.
  intros Hwf Hr Hn Hv. destruct (next_some_inv _ _ _ _ _ Hwf Hr Hn) as (Hinv & Hq & Hnuf & He).
  pose proof (emit_lookup_rev _ _ _ _ He Hv) as HAv.
  assert (Ht : v ∈ map snd (trail st')) by (apply (inv_bound_iff _ _ Hinv); eauto).
  destruct (elem_of_map_snd_inv _ _ Ht) as [j Hj].
  destruct (inv_trail_var _ _ Hinv j v Hj) as (C & HC & HvC).
  pose proof (trail_ordered_lt _ _ _ _ (inv_trail_ordered _ _ Hinv) Hj) as Hjn.
  destruct (inv_supported _ _ Hinv j C Hjn HC) as (facts & i & f & Hb & Hi & Hf & (Hlen & _ & Hfo) & _).
  destruct (first_occ_exists C v HvC) as [p Hp].
  destruct (Hfo p v Hp) as (x' & Hx' & HAx'). rewrite HAv in HAx'. injection HAx' as <-.
  exists C, p, f. rewrite Hq in HC. split_and!; [by eapply list_elem_of_lookup_2|done| |done].
  exists facts. rewrite Hlen. split; [done|]. by eapply list_elem_of_lookup_2.
Qed.

(** X15. Each value [x] that an assignment returned by [next] gives a
    variable [v] comes from the store: [v] occurs in a conjunct [C] of
    the query, and a stored fact holds [x] at the first position of [v]
    in [C]. *)
Theorem next_values_from_store (db : Database) (q : Query) (st st' : QueryState) (A : Assignment) v x :
  db_wf db -> reachable db q st -> next_rel db st (Ok (st', Some A)) -> A !! v = Some x ->
  ∃ C p f, C ∈ elems q ∧ first_occ C p v ∧ in_store db f ∧ f !! p = Some x.
Proof. apply next_value_source. Qed.

Lemma next_values_from_store_witness :
  ∃ C p f, C ∈ elems q6 ∧ first_occ C p 0 ∧ in_store test_db f ∧ f !! p = Some 2%N.
Proof.
  apply (next_values_from_store test_db q6 (QueryState_new q6)
           (next_state_fuel 1000 test_db (QueryState_new q6)) [2; 2; 2]%N).
  - repeat split; repeat constructor.
  - apply reach_new.
  - apply (next_fuel_sound 1000). vm_compute. reflexivity.
  - reflexivity.
Defined.

(** ** Stores built by the frontend *)

Lemma lookup_map_list {A B} (g : A -> B) (l : list A) p : map g l !! p = g <$> l !! p.
Proof. revert p. induction l as [|a l IH]; intros [|p]; simpl; auto. Qed.

Lemma front_add_fact_inv (d d' : Frontend.Database) (f : list string) :
  interned_wf d -> db_wf (Frontend.db d) -> syms_interned d -> Frontend.add_fact d f = Ok d' ->
  interned_wf d' ∧ db_wf (Frontend.db d') ∧ syms_interned d'.
Proof.
  intros Hwf Hdb Hsy. unfold Frontend.add_fact.
  destruct (Frontend.intern_all d f) as [d1 syms] eqn:Ha.
  destruct (add_fact (Frontend.db d1) syms) as [core|e] eqn:Hc; simpl; [|discriminate].
  intros [= <-]. destruct (intern_all_spec _ _ _ _ Hwf Ha) as (Hwf1 & Hmap & _ & Hint & Hdb1).
  apply add_fact_ok_iff in Hc as [Hl ->]. rewrite Hdb1. simpl.
  destruct Hdb as (H1 & H2 & H3 & H4 & H5 & H6).
  split_and!; [done|repeat split; simpl; try done; apply Forall_app; split; [done|by constructor]|].
  intros n facts g x Hb Hg Hx. simpl in Hb.
  assert (Hold : ∀ facts', bucket (Frontend.db d) n = Some facts' -> g ∈ facts' ->
                   is_Some (Frontend.interned d1 !! N.to_nat x)).
  { intros facts' Hb' Hg'. destruct (Hsy n facts' g x Hb' Hg' Hx) as [t Ht]. exists t. by apply Hint. }
  destruct n as [|[|[|[|[|[|[|n]]]]]]]; simpl in Hb; try discriminate; injection Hb as <-;
    try (by apply (Hold _ eq_refl)).
  apply elem_of_app in Hg as [Hg|Hg]; [by apply (Hold _ eq_refl)|].
  apply list_elem_of_singleton in Hg as ->.
  apply list_elem_of_lookup_1 in Hx as [p Hp].
  apply (f_equal (fun l => l !! p)) in Hmap. rewrite !lookup_map_list in Hmap.
  rewrite Hp in Hmap. simpl in Hmap.
  destruct (f !! p) as [s|]; simpl in Hmap; [|discriminate]. injection Hmap as Hm. exists s. exact Hm.
Qed.

Lemma front_add_facts_inv (d d' : Frontend.Database) (fs : list (list string)) :
  interned_wf d -> db_wf (Frontend.db d) -> syms_interned d -> front_add_facts d fs = Ok d' ->
  interned_wf d' ∧ db_wf (Frontend.db d') ∧ syms_interned d'.
Proof.
  revert d. induction fs as [|f fs IH]; intros d Hwf Hdb Hsy; simpl; [by intros [= <-]|].
  destruct (Frontend.add_fact d f) as [d1|e] eqn:Ha; simpl; [|discriminate].
  destruct (front_add_fact_inv _ _ _ Hwf Hdb Hsy Ha) as (? & ? & ?). by apply IH.
Qed.

Lemma front_new_inv : interned_wf Frontend.new ∧ db_wf (Frontend.db Frontend.new) ∧ syms_interned Frontend.new.
Proof.
  split_and!; [apply interned_wf_new|apply db_wf_new|].
  intros n facts f x Hb Hf. destruct n as [|[|[|[|[|[|[|n]]]]]]]; simpl in Hb; try discriminate;
    injection Hb as <-; by apply not_elem_of_nil in Hf.
Qed.

(** X16. On a frontend store built by [add_fact] calls from a new one,
    every value of an assignment returned by [next] is an index of the
    string table: the lookup [self.interned[val as usize]] of [run]
    does not panic. *)
Theorem frontend_values_interned (fs : list (list string)) (d : Frontend.Database) (q : Query)
    (st st' : QueryState) (A : Assignment) x :
  front_add_facts Frontend.new fs = Ok d ->
  reachable (Frontend.db d) q st -> next_rel (Frontend.db d) st (Ok (st', Some A)) -> x ∈ A ->
  is_Some (Frontend.interned d !! N.to_nat x).
Proof.
  intros Hd Hr Hn Hx. destruct front_new_inv as (Hw0 & Hdb0 & Hsy0).
  destruct (front_add_facts_inv _ _ _ Hw0 Hdb0 Hsy0 Hd) as (_ & Hdb & Hsy).
  apply list_elem_of_lookup_1 in Hx as [v Hv].
  destruct (next_value_source _ _ _ _ _ _ _ Hdb Hr Hn Hv) as (C & p & f & _ & _ & (facts & Hb & Hf) & Hp).
  apply (Hsy _ _ f x Hb Hf). by eapply list_elem_of_lookup_2.
Qed.

Lemma frontend_values_interned_witness : is_Some (Frontend.interned objects_db !! N.to_nat 5).
Proof.
  apply (frontend_values_interned objects_facts objects_db objects_cq (QueryState_new objects_cq)
           (next_state_fuel 1000 (Frontend.db objects_db) (QueryState_new objects_cq)) [1; 5]%N).
  - vm_compute. reflexivity.
  - apply reach_new.
  - apply (next_fuel_sound 1000). vm_compute. reflexivity.
  - right. left.
Defined.

(** ** The loop of [next] ends *)

Lemma pow_pos_nat (B m : nat) : 0 < B -> 0 < B ^ m.
Proof. intros HB. apply Nat.neq_0_lt_0, Nat.pow_nonzero. lia. Qed.

Lemma pos_rank_lt_pow (B m : nat) (P : list nat) :
  0 < B -> Forall (fun x => S x < B) P -> length P ≤ m -> pos_rank B m P < B ^ m.
Proof.
  intros HB. revert m. induction P as [|x P IH]; intros m HP Hl.
  - destruct m; simpl; [lia|]. pose proof (pow_pos_nat B m HB). lia.
  - destruct m as [|m]; simpl in Hl; [lia|]. apply Forall_cons in HP as [Hx HP].
    specialize (IH m HP ltac:(lia)). simpl. nia.
Qed.

Lemma pos_rank_lex (B m : nat) (pre R1 R2 : list nat) x y :
  0 < B -> Forall (fun z => S z < B) R1 -> x < y ->
  length (pre ++ x :: R1) ≤ m -> length (pre ++ y :: R2) ≤ m ->
  pos_rank B m (pre ++ x :: R1) < pos_rank B m (pre ++ y :: R2).
Proof.
  intros HB HR1 Hxy. revert m. induction pre as [|z pre IH]; intros m H1 H2; simpl in *.
  - destruct m as [|m]; [lia|]. pose proof (pos_rank_lt_pow B m R1 HB HR1 ltac:(lia)).
    simpl. remember (B ^ m) as X.
    assert (S x * X + X ≤ S y * X) by (replace (S x * X + X) with (S (S x) * X) by lia;
                                        apply Nat.mul_le_mono_r; lia).
    lia.
  - destruct m as [|m]; [lia|]. simpl. apply Nat.add_lt_mono_l. apply IH; lia.
Qed.

Lemma pos_rank_ext (B m : nat) (P R : list nat) y :
  0 < B -> length (P ++ y :: R) ≤ m -> pos_rank B m P < pos_rank B m (P ++ y :: R).
Proof.
  intros HB. revert m. induction P as [|z P IH]; intros m H; simpl in *.
  - destruct m as [|m]; [lia|]. simpl. pose proof (pow_pos_nat B m HB). nia.
  - destruct m as [|m]; [lia|]. simpl. apply Nat.add_lt_mono_l. apply IH; lia.
Qed.

Lemma bucket_size (db : Database) n facts : bucket db n = Some facts -> length facts ≤ db_size db.
Proof.
  unfold db_size. destruct n as [|[|[|[|[|[|[|n]]]]]]]; simpl; intros H; try discriminate;
    injection H as <-; lia.
Qed.

Lemma search_pos_length (st : QueryState) :
  next_unsupported_fact st ≤ length (fact_support st) ->
  length (search_pos st) = S (next_unsupported_fact st).
Proof. intros H. unfold search_pos. rewrite length_app, length_take. simpl. lia. Qed.

Lemma search_pos_bound (db : Database) (st : QueryState) :
  Inv db st -> wf_query (query st) -> Forall (fun x => x ≤ db_size db) (search_pos st).
Proof.
  intros Hinv Hq. pose proof (inv_support_len _ _ Hinv) as Hslen. pose proof (inv_nuf_le _ _ Hinv) as Hle.
  unfold search_pos. apply Forall_app. split.
  - apply Forall_lookup. intros j x Hx.
    assert (Hj : j < next_unsupported_fact st).
    { apply lookup_lt_Some in Hx. rewrite length_take in Hx. lia. }
    rewrite lookup_take_lt in Hx; [|done].
    destruct (lookup_lt_is_Some_2 (elems (query st)) j) as [C HC]; [lia|].
    destruct (inv_supported _ _ Hinv j C Hj HC) as (facts & i & f & Hb & Hi & Hf & _).
    rewrite Hx in Hi. injection Hi as <-. apply lookup_lt_Some in Hf.
    pose proof (bucket_size _ _ _ Hb). lia.
  - apply Forall_singleton.
    destruct (fact_support st !! next_unsupported_fact st) as [c|] eqn:Hc; simpl; [|lia].
    destruct (lookup_lt_is_Some_2 (elems (query st)) (next_unsupported_fact st)) as [C HC].
    { apply lookup_lt_Some in Hc. lia. }
    assert (Har : 1 ≤ length C ≤ 6).
    { unfold wf_query in Hq. rewrite Forall_lookup in Hq. by apply (Hq _ _ HC). }
    destruct (proj2 (bucket_arity db (length C)) Har) as [facts Hb].
    pose proof (inv_cursor _ _ Hinv C facts c HC Hb Hc). pose proof (bucket_size _ _ _ Hb). lia.
Qed.

Lemma step_rank (db : Database) (st st' : QueryState) (B m : nat) :
  Inv db st -> step db st = Ok (Continue st') -> 0 < B ->
  Forall (fun x => S x < B) (search_pos st) -> length (elems (query st)) < m ->
  pos_rank B m (search_pos st) < pos_rank B m (search_pos st').
Proof.
  intros Hinv Hs HB Hbd Hm. pose proof (inv_support_len _ _ Hinv) as Hslen.
  pose proof (step_cases _ _ _ Hs) as Hc. destruct st as [q fs A k tr].
  cbn -[undo_last] in Hc, Hslen, Hm.
  destruct Hc as (C & pat & c & HC & Hpat & Hfc &
    [(i & f & A' & tr' & Hnm & Hb & Heq) | (Hnm & [(-> & Heq) | (Hk0 & st'' & Hu & Heq)])]);
    [ | discriminate | ].
  - injection Heq as ->. destruct (next_match_some _ _ _ _ _ Hnm) as (facts & _ & Hci & _).
    assert (Hk : k < length fs) by (by apply lookup_lt_Some in Hfc).
    unfold search_pos. cbn [next_unsupported_fact fact_support].
    rewrite (take_S_r _ _ i); [|by rewrite list_lookup_insert_eq].
    rewrite take_insert_ge; [|lia]. rewrite list_lookup_insert_ne; [|lia]. rewrite Hfc. simpl.
    assert (Hlk : length (take k fs) = k) by (rewrite length_take; lia).
    destruct (decide (c = i)) as [<-|Hne].
    + apply pos_rank_ext; [done|]. rewrite !length_app. simpl. lia.
    + rewrite <- app_assoc. simpl. apply pos_rank_lex; [done|constructor|lia| |];
        rewrite length_app; simpl; lia.
  - injection Heq as ->.
    apply undo_last_unfold in Hu as (k1 & c1 & A1 & p1 & Hk1 & Hc1 & Hst & _).
    cbn in Hk1, Hc1, Hst. subst k st''.
    assert (Hk : S k1 < length fs) by (by apply lookup_lt_Some in Hfc).
    rewrite list_lookup_insert_ne in Hc1; [|lia].
    unfold search_pos. cbn [next_unsupported_fact fact_support].
    rewrite list_lookup_insert_eq; [|rewrite length_insert; lia]. simpl.
    rewrite take_insert_ge; [|lia]. rewrite take_insert_ge; [|lia].
    rewrite (take_S_r _ _ c1 Hc1). rewrite Hfc. simpl. rewrite <- app_assoc. simpl.
    assert (Hlk : length (take k1 fs) = k1) by (rewrite length_take; lia).
    unfold search_pos in Hbd. cbn [next_unsupported_fact fact_support] in Hbd.
    rewrite Hfc in Hbd. simpl in Hbd. apply Forall_app in Hbd as [_ Hbd].
    apply pos_rank_lex; [done|done|lia| |]; rewrite length_app; simpl; lia.
Qed.

Lemma loop_terminates (db : Database) (q : Query) :
  db_wf db -> wf_query q -> ∀ st, Inv db st -> query st = q -> ∃ r, loop_rel db st r.
Proof.
  intros Hwf Hq.
  remember (db_size db + 2) as B eqn:HB. remember (S (length (elems q))) as m eqn:Hmq.
  assert (Hgen : ∀ N st, B ^ m - pos_rank B m (search_pos st) < N -> Inv db st -> query st = q ->
                   ∃ r, loop_rel db st r).
  { induction N as [|N IH]; intros st Hlt Hinv Hqs; [lia|].
    destruct (decide (next_unsupported_fact st < length (fact_support st))) as [Hk|Hk];
      [|eexists; by apply loop_exit].
    destruct (step_exists db st Hinv Hwf ltac:(by rewrite Hqs) Hk) as [[st'|st'] Ho].
    - destruct (inv_step _ _ _ Hinv Hwf Ho) as [Hinv' Hq'].
      assert (Hbd : Forall (fun x => S x < B) (search_pos st)).
      { eapply Forall_impl; [apply (search_pos_bound db st Hinv); by rewrite Hqs|]. intros x Hx. cbv beta in *. lia. }
      pose proof (inv_support_len _ _ Hinv) as Hslen. pose proof (inv_nuf_le _ _ Hinv) as Hle.
      assert (Hlt0 : pos_rank B m (search_pos st) < B ^ m).
      { apply pos_rank_lt_pow; [lia|done|]. rewrite search_pos_length; [|lia]. rewrite Hqs in Hle. lia. }
      assert (Hinc : pos_rank B m (search_pos st) < pos_rank B m (search_pos st')).
      { apply (step_rank db); [done|done|lia|done|]. rewrite Hqs. lia. }
      destruct (IH st') as [r Hr]; [lia|done|congruence|].
      exists r. by apply (loop_continue _ st st').
    - exists (Ok (st', None)). by apply (loop_return _ st st'). }
  intros st Hinv Hqs. apply (Hgen (S (B ^ m - pos_rank B m (search_pos st)))); [lia|done|done].
Qed.

(** X17. On a store built by [add_fact] and a query whose conjuncts all
    have a supported arity (1 to 6), every call of [next] comes to an
    end: the backtracking loop cannot run forever. (Each iteration moves
    the search strictly forward in the lexicographic order of its
    cursors, which are bounded by the store's size.) *)
Theorem next_terminates (db : Database) (q : Query) (st : QueryState) :
  db_wf db -> wf_query q -> reachable db q st -> ∃ r, next_rel db st r.
Proof.
  intros Hwf Hq Hr. destruct (reachable_inv _ _ _ Hwf Hr) as (Hinv & Hqs & _).
  unfold next_rel. destruct (prelude st) as [st0|e] eqn:Hp; [|by eexists].
  destruct (prelude_inv _ _ _ Hinv Hp) as (Hinv0 & Hq0 & _).
  apply (loop_terminates db q Hwf Hq st0 Hinv0). congruence.
Qed.

Lemma next_terminates_witness : ∃ r, next_rel test_db (QueryState_new q6) r.
Proof.
  apply (next_terminates test_db q6 (QueryState_new q6)).
  - repeat split; repeat constructor.
  - repeat constructor; simpl; lia.
  - apply reach_new.
Defined.
